(** * peregrine: the hierarchical logger of src/logger.cpp

    A shallow embedding of the logger tree, of sink subscription and
    broadcast, of the filter chain and of the three sinks of the
    repository, followed by the properties of them that are proved.

    Conventions of the embedding.
    - [size_t] is 64 bits wide and [int] 32 bits; both are values of [Z]
      with the conversions written out ([size_t_of], [int_of]).
    - A [std::string] is a [string]; a [std::vector] is a [list];
      the [children] map of a logger is a [gmap] from the child's key.
    - A [Logger*] is the list of keys that leads from the root logger to
      the node ([ptr]); the map keeps one node for each key and never
      moves it, so two pointers are equal exactly when the key lists are.
    - A [std::weak_ptr<Sink>] is the control block it shares in ownership
      ([weak_ptr]); the managed sinks that are alive are a map from
      control blocks ([Heap]).
    - What a call writes (streams, socket) and the virtual calls it makes
      on filters are appended to a trace of events ([World]). *)

From stdpp Require Import gmap strings list fin_maps.
From Stdlib Require Import ZArith Ascii Floats.PrimFloat.

Local Open Scope Z_scope.

(** ** Machine integers *)

(** [std::string::npos], the largest [size_t]. *)
Definition npos : Z := 2 ^ 64 - 1.

(** Conversion to [size_t]: reduction modulo 2^64. *)
Definition size_t_of (z : Z) : Z := z mod 2 ^ 64.

(** Conversion to [int] (also the result of an [int] addition, taken as
    two's complement): the representative in [-2^31, 2^31). *)
Definition int_of (z : Z) : Z := (z + 2 ^ 31) mod 2 ^ 32 - 2 ^ 31.

(** ** Strings *)

(** [find_from c s i]: the index of the first [c] in [s], counted from
    [i] at the head of [s]. *)
Fixpoint find_from (c : ascii) (s : string) (i : nat) : option nat :=
  match s with
  | EmptyString => None
  | String a s' => if Ascii.eqb a c then Some i else find_from c s' (S i)
  end.

(** [s.find(c)] for a needle of one character: the index, or [npos]. *)
Definition string_find (s : string) (c : ascii) : Z :=
  match find_from c s 0 with
  | Some i => Z.of_nat i
  | None => npos
  end.

(** The first [n] characters of [s], and [s] without them. *)
Fixpoint string_take (n : nat) (s : string) : string :=
  match n, s with
  | S n', String a s' => String a (string_take n' s')
  | _, _ => EmptyString
  end.

Fixpoint string_drop (n : nat) (s : string) : string :=
  match n, s with
  | S n', String _ s' => string_drop n' s'
  | _, _ => s
  end.

(** [s.substr(pos, count)]: the [min count (size - pos)] characters from
    [pos] on; [None] stands for [std::out_of_range], thrown when [pos] is
    past the end. *)
Definition string_substr (s : string) (pos count : Z) : option string :=
  let size := Z.of_nat (String.length s) in
  if size <? pos then None
  else
    let n := Z.min count (size - pos) in
    Some (string_take (Z.to_nat n) (string_drop (Z.to_nat pos) s)).

(** [s.erase(index, count)]: [s] without the [min count (size - index)]
    characters from [index] on; [None] as for [string_substr]. *)
Definition string_erase (s : string) (index count : Z) : option string :=
  let size := Z.of_nat (String.length s) in
  if size <? index then None
  else
    let n := Z.min count (size - index) in
    Some (string_take (Z.to_nat index) s +:+ string_drop (Z.to_nat (index + n)) s).

(** ** Log records *)

Inductive LogLevel := ANY | DEBUG | INFO | WARNING | ERROR | CRITICAL.

Definition esc : string := String (ascii_of_nat 27) EmptyString.

Definition LogLevel_toStr (level : LogLevel) (with_color : bool) : string :=
  let name :=
    match level with
    | ANY => "ANY" | DEBUG => "DEBUG" | INFO => "INFO"
    | WARNING => "WARNING" | ERROR => "ERROR" | CRITICAL => "CRITICAL"
    end%string in
  if with_color then
    let color_code :=
      match level with
      | ANY => esc +:+ "[97m" | DEBUG => esc +:+ "[96m" | INFO => esc +:+ "[92m"
      | WARNING => esc +:+ "[93m" | ERROR => esc +:+ "[91m"
      | CRITICAL => esc +:+ "[31m"
      end in
    color_code +:+ name +:+ esc +:+ "[0m"
  else name.

Record Log := mkLog {
  source : string;
  time : float;
  level : LogLevel;
  message : string }.

(** ** The world outside the logger tree *)

(** One insertion into an output stream. *)
Inductive Item :=
  | Fixed (width precision : nat) (x : float)
  | Text (s : string)
  | Endl.

(** A filter is an object with a virtual [filter(Log)]: its address and the
    predicate its class computes. *)
Record Filter := mkFilter {
  filter_addr : nat;
  accepts : Log -> bool }.

Inductive Event :=
  | FilterCall (addr : nat) (log : Log)
  | Cout (i : Item)
  | FileWrite (path : string) (i : Item)
  | ZmqSend (address topic : string) (payload : Log).

Definition World := list Event.

(** How a call ends: it returns, it leaves by an exception, or its
    behaviour is undefined (a null pointer dereferenced, an iterator
    that may not be erased). What was done before stays done. *)
Inductive completion := Returned | Thrown | Undefined.

(** ** Filterer *)

(** A [std::shared_ptr<Filter>]: [None] is the null pointer. *)
Definition shared_ptr (A : Type) := option A.

Record Filterer := mkFilterer { filters : list (shared_ptr Filter) }.

Definition add_filter (filter : shared_ptr Filter) (this : Filterer) : Filterer :=
  mkFilterer (filters this ++ [filter]).

Definition clear_filters (this : Filterer) : Filterer := this.

(** The loop of [Filterer::filter] over the rest of the vector. *)
Fixpoint filter_loop (fs : list (shared_ptr Filter)) (log : Log) (w : World)
  : bool * World * completion :=
  match fs with
  | [] => (true, w, Returned)
  | None :: _ => (false, w, Undefined)
  | Some f :: fs' =>
      let w' := w ++ [FilterCall (filter_addr f) log] in
      if negb (accepts f log) then (false, w', Returned)
      else filter_loop fs' log w'
  end.

Definition Filterer_filter (this : Filterer) (log : Log) (w : World)
  : bool * World * completion :=
  filter_loop (filters this) log w.

(** ** Vectors: the pieces of the erase-remove idiom *)

(** [std::find_if]: the index of the first element that satisfies [pred],
    or the size of the vector. *)
Fixpoint find_if {A} (pred : A -> bool) (v : list A) : nat :=
  match v with
  | [] => 0%nat
  | x :: v' => if pred x then 0%nat else S (find_if pred v')
  end.

(** One round of the loop of [std::remove_if], at the iterator [first]:
    an element that stays is move-assigned to [*result], which leaves
    [moved] (the moved-from value) at [first]. *)
Definition remove_step {A} (pred : A -> bool) (moved : A)
    (st : list A * nat) (first : nat) : list A * nat :=
  let '(v, result) := st in
  match v !! first with
  | Some x =>
      if pred x then (v, result)
      else (<[first := moved]> (<[result := x]> v), S result)
  | None => st
  end.

(** [std::remove_if(v.begin(), v.end(), pred)]: the vector afterwards and
    the index of the iterator returned. *)
Definition remove_if {A} (pred : A -> bool) (moved : A) (v : list A)
  : list A * nat :=
  let first := find_if pred v in
  if decide (first = length v) then (v, first)
  else foldl (remove_step pred moved) (v, first)
             (seq (S first) (length v - S first)).

(** [v.erase(pos)] with one iterator: the element at [pos] is removed;
    [pos] has to be dereferenceable, [None] is the undefined behaviour of
    erasing at [v.end()]. *)
Definition vector_erase {A} (v : list A) (pos : nat) : option (list A) :=
  if decide (pos < length v)%nat then Some (delete pos v) else None.

(** [operator==] of two [std::shared_ptr<Filter>]: the same address. *)
Definition shared_ptr_eq (a b : shared_ptr Filter) : bool :=
  match a, b with
  | None, None => true
  | Some f, Some g => bool_decide (filter_addr f = filter_addr g)
  | _, _ => false
  end.

(** [Filterer::remove_filter]: [std::remove] is [std::remove_if] with the
    comparison to [filter]; a moved-from [shared_ptr] is null. *)
Definition remove_filter (filter : shared_ptr Filter) (this : Filterer)
  : option Filterer :=
  let '(v, new_end) := remove_if (fun f => shared_ptr_eq f filter) None (filters this) in
  mkFilterer <$> vector_erase v new_end.

(** ** Sinks *)

Inductive SinkClass :=
  | PrintSink (with_color : bool)
  | FileSink (file_path : string)
  | ZMQPubSink (address topic : string).

(** A sink: the [Filterer] it derives from and the members of its class. *)
Record Sink := mkSink {
  sink_filterer : Filterer;
  sink_class : SinkClass }.

Definition emit (w : World) (es : list Event) : World := w ++ es.

(** [log.source.substr(1)] with the default count. *)
Definition source_tail (log : Log) : option string :=
  string_substr (source log) 1 npos.

Definition PrintSink_handle (filterer : Filterer) (with_color : bool)
    (log : Log) (w : World) : World * completion :=
  match Filterer_filter filterer log w with
  | (_, w, Thrown) => (w, Thrown)
  | (_, w, Undefined) => (w, Undefined)
  | (false, w, Returned) => (w, Returned)
  | (true, w, Returned) =>
      let w := emit w [Cout (Fixed 9 5 (time log)); Cout (Text " ")] in
      let w := emit w [Cout (Text "["); Cout (Text (LogLevel_toStr (level log) with_color));
                       Cout (Text "] ")] in
      let w := emit w [Cout (Text (message log)); Cout (Text " ")] in
      let w := emit w [Cout (Text "(")] in
      match source_tail log with
      | Some src => (emit w [Cout (Text src); Cout (Text ")"); Cout Endl], Returned)
      | None => (w, Thrown)
      end
  end.

Section HeaderDefaults.

(** The default of the parameter [with_color] of [LogLevel_toStr] is
    declared in logger.hpp, which is not among the sources. *)
Variable with_color_default : bool.

Definition FileSink_handle (file_path : string) (log : Log) (w : World)
  : World * completion :=
  let out i := FileWrite file_path i in
  let w := emit w [out (Fixed 12 8 (time log)); out (Text " ")] in
  let w := emit w [out (Text "[");
                   out (Text (LogLevel_toStr (level log) with_color_default));
                   out (Text "] ")] in
  let w := emit w [out (Text (message log)); out (Text " ")] in
  let w := emit w [out (Text "(")] in
  match source_tail log with
  | Some src => (emit w [out (Text src); out (Text (")" +:+ String (ascii_of_nat 10) EmptyString))],
                 Returned)
  | None => (w, Thrown)
  end.

(** The two parts sent are the topic and the dumped JSON of the record;
    the event keeps the record itself. *)
Definition ZMQPubSink_handle (address topic : string) (log : Log) (w : World)
  : World * completion :=
  (emit w [ZmqSend address topic log], Returned).

(** The virtual call [sink->handle(log)]. *)
Definition Sink_handle (sink : Sink) (log : Log) (w : World) : World * completion :=
  match sink_class sink with
  | PrintSink with_color => PrintSink_handle (sink_filterer sink) with_color log w
  | FileSink file_path => FileSink_handle file_path log w
  | ZMQPubSink address topic => ZMQPubSink_handle address topic log w
  end.

End HeaderDefaults.

(** ** Weak references *)

(** A [std::weak_ptr<Sink>]: empty, or sharing the control block [ctrl]. *)
Inductive weak_ptr := EmptyPtr | Owned (ctrl : nat).

(** The managed sinks that have not been destroyed, by control block. *)
Definition Heap (S : Type) := gmap nat S.

Definition lock {S} (heap : Heap S) (p : weak_ptr) : option S :=
  match p with
  | EmptyPtr => None
  | Owned ctrl => heap !! ctrl
  end.

(** The address that [owner_before] orders by: the control block, null
    for an empty pointer. *)
Definition owner_addr (p : weak_ptr) : nat :=
  match p with
  | EmptyPtr => 0%nat
  | Owned ctrl => S ctrl
  end.

Definition owner_before (t u : weak_ptr) : bool :=
  bool_decide (owner_addr t < owner_addr u)%nat.

Definition equals (t u : weak_ptr) : bool :=
  negb (owner_before t u || owner_before u t).

(** ** The logger tree *)

(** A [Logger*]: the keys from the root logger down to the node. *)
Definition ptr := list string.

#[warnings="-register-all"]
Inductive Logger := mkLogger {
  parent : option ptr;
  name : string;
  propagate : bool;
  children : gmap string Logger;
  sinks : list weak_ptr }.

(** Modelled from the spec: the default of the constructor's parameter
    [propagate] is declared in logger.hpp, which is not among the sources;
    the spec has a child created with [propagate = true] by default. *)
Definition propagate_default : bool := true.

(** The constructor: no children, no sinks. *)
Definition Logger_new (parent : option ptr) (name : string) (propagate : bool) : Logger :=
  mkLogger parent name propagate ∅ [].

Definition set_sinks (l : Logger) (s : list weak_ptr) : Logger :=
  mkLogger (parent l) (name l) (propagate l) (children l) s.

Definition set_children (l : Logger) (c : gmap string Logger) : Logger :=
  mkLogger (parent l) (name l) (propagate l) c (sinks l).

(** The node a pointer leads to, from the node [l] on. *)
Fixpoint node_at (p : ptr) (l : Logger) : option Logger :=
  match p with
  | [] => Some l
  | k :: p' =>
      match children l !! k with
      | Some c => node_at p' c
      | None => None
      end
  end.

(** The tree in which the node at [p] has become [f] of itself. *)
Fixpoint update_at (p : ptr) (f : Logger -> Logger) (l : Logger) : Logger :=
  match p with
  | [] => f l
  | k :: p' =>
      match children l !! k with
      | Some c => set_children l (<[k := update_at p' f c]> (children l))
      | None => l
      end
  end.

(** *** Broadcast *)

Section Broadcast.

Context {S : Type}.
(** The sinks alive during the call and the virtual [Sink::handle]. A
    handler acts on the world; it is taken neither to destroy a sink nor
    to subscribe one while the loop runs, so the heap is fixed. *)
Variable heap : Heap S.
Variable handle : S -> Log -> World -> World * completion.

(** The loop of [Logger::publish_log] over the vector from [iter] on:
    what is left of that part, the world, and how the loop ended. *)
Fixpoint publish_loop (log : Log) (rest : list weak_ptr) (w : World)
  : list weak_ptr * World * completion :=
  match rest with
  | [] => ([], w, Returned)
  | p :: rest' =>
      match lock heap p with
      | Some sink_ptr =>
          match handle sink_ptr log w with
          | (w', Returned) =>
              let '(kept, w'', c) := publish_loop log rest' w' in
              (p :: kept, w'', c)
          | (w', c) => (p :: rest', w', c)
          end
      | None => publish_loop log rest' w
      end
  end.

Definition publish_log (log : Log) (this : Logger) (w : World)
  : Logger * World * completion :=
  let '(kept, w', c) := publish_loop log (sinks this) w in
  (set_sinks this kept, w', c).

(** [Logger::debug] and its siblings; [now] is what [time_now()] reads. *)
Definition Logger_log (lvl : LogLevel) (now : float) (message : string)
    (this : Logger) (w : World) : Logger * World * completion :=
  publish_log (mkLog (name this) now lvl message) this w.

Definition debug := Logger_log DEBUG.
Definition info := Logger_log INFO.
Definition warning := Logger_log WARNING.
Definition error := Logger_log ERROR.
Definition critical := Logger_log CRITICAL.

(** A call [p->publish_log(log)] in the tree under [root]. *)
Definition publish_log_at (p : ptr) (log : Log) (root : Logger) (w : World)
  : option (Logger * World * completion) :=
  match node_at p root with
  | Some this =>
      let '(this', w', c) := publish_log log this w in
      Some (update_at p (fun _ => this') root, w', c)
  | None => None
  end.

End Broadcast.

(** *** Subscription *)

Fixpoint attach_sink (sink : weak_ptr) (this : Logger) : Logger :=
  mkLogger (parent this) (name this) (propagate this)
           (attach_sink sink <$> children this)
           (sinks this ++ [sink]).

(** [Logger::deattach_sink]; [None] is undefined behaviour, in this node
    or in a descendant. A moved-from [weak_ptr] is empty. *)
Fixpoint deattach_sink (sink : weak_ptr) (this : Logger) : option Logger :=
  let '(v, new_end) := remove_if (fun s => equals sink s) EmptyPtr (sinks this) in
  match vector_erase v new_end with
  | Some sinks' =>
      let cs := deattach_sink sink <$> children this in
      if bool_decide (map_Forall (fun _ c => is_Some c) cs)
      then Some (mkLogger (parent this) (name this) (propagate this)
                          (omap id cs) sinks')
      else None
  | None => None
  end.

(** *** Path resolution *)

Definition ensure_child (this_ptr : ptr) (logger_name : string) (this : Logger) : Logger :=
  match children this !! logger_name with
  | Some _ => this
  | None =>
      set_children this
        (<[logger_name := Logger_new (Some this_ptr)
                                     (name this +:+ "/" +:+ logger_name)
                                     propagate_default]> (children this))
  end.

Definition slash : ascii := "/"%char.

(** [Logger::get], with a bound on the depth of the recursion. The result
    is [None] when an exception leaves the call or the bound is reached;
    otherwise the tree afterwards and the pointer returned ([None] for
    [nullptr]). The sum [delim_index + 1] is an [int]. *)
Fixpoint get_rec (fuel : nat) (this_ptr : ptr) (logger_name : string) (this : Logger)
  : option (Logger * option ptr) :=
  match fuel with
  | O => None
  | Datatypes.S fuel' =>
      let delim_index := int_of (string_find logger_name slash) in
      head ← string_substr logger_name 0 (size_t_of delim_index);
      let this := ensure_child this_ptr head this in
      if decide (size_t_of delim_index = npos) then
        match children this !! head with
        | Some _ => Some (this, Some (this_ptr ++ [head]))
        | None => Some (this, None)
        end
      else
        tail ← string_erase logger_name 0 (size_t_of (int_of (delim_index + 1)));
        match children this !! head with
        | Some child =>
            '(child', r) ← get_rec fuel' (this_ptr ++ [head]) tail child;
            Some (set_children this (<[head := child']> (children this)), r)
        | None => Some (this, None)
        end
  end.

(** Each call down the tree consumes at least one character of the name. *)
Definition Logger_get (this_ptr : ptr) (logger_name : string) (this : Logger)
  : option (Logger * option ptr) :=
  get_rec (Datatypes.S (String.length logger_name)) this_ptr logger_name this.

(** [logging::get]: resolution from the root logger. *)
Definition get (logger_name : string) (root_logger : Logger)
  : option (Logger * option ptr) :=
  Logger_get [] logger_name root_logger.

(** [Sink::subscribe] and [Sink::unsubscribe] on a logger pointer; [self] is
    what [weak_from_this()] gives. [None]: the pointer leads nowhere, or
    the behaviour is undefined. *)
Definition subscribe (self : weak_ptr) (logger : ptr) (root_logger : Logger)
  : option Logger :=
  match node_at logger root_logger with
  | Some _ => Some (update_at logger (attach_sink self) root_logger)
  | None => None
  end.

Definition unsubscribe (self : weak_ptr) (logger : ptr) (root_logger : Logger)
  : option Logger :=
  match node_at logger root_logger with
  | Some this =>
      this' ← deattach_sink self this;
      Some (update_at logger (fun _ => this') root_logger)
  | None => None
  end.

(** [Sink::subscribe(string)] and [Sink::unsubscribe(string)]. *)
Definition subscribe_path (self : weak_ptr) (logger : string) (root_logger : Logger)
  : option Logger :=
  '(root', r) ← get logger root_logger;
  p ← r;
  subscribe self p root'.

Definition unsubscribe_path (self : weak_ptr) (logger : string) (root_logger : Logger)
  : option Logger :=
  '(root', r) ← get logger root_logger;
  p ← r;
  unsubscribe self p root'.

(** ** Notions used in the statements *)

(** The call event of a filter. *)
Definition call_of (log : Log) (f : Filter) : Event := FilterCall (filter_addr f) log.

(** The members of a chain that are asked: all up to the first that
    rejects, that one included. *)
Definition asked (log : Log) (fl : list Filter) : list Filter :=
  take (Datatypes.S (find_if (fun f => negb (accepts f log)) fl)) fl.

(** A weak reference resolves. *)
Definition live {S} (heap : Heap S) (p : weak_ptr) : Prop := is_Some (lock heap p).

#[global] Instance live_dec {S} (heap : Heap S) (p : weak_ptr) : Decision (live heap p).
Proof. unfold live. apply _. Defined.

(** What a node holds itself: its members, with the keys of its children
    in place of the subtrees. *)
Definition fields (l : Logger) : option ptr * string * bool * gset string * list weak_ptr :=
  (parent l, name l, propagate l, dom (children l), sinks l).

(** A record, a filter that rejects every record, and a chain of it. *)
Definition rec0 : Log := mkLog "/app" 0%float INFO "start".
Definition reject_all : Filter := mkFilter 7 (fun _ => false).
Definition chain0 : Filterer := mkFilterer [Some reject_all].

(** A small tree: the root, its child [app] and the sinks alive. Of the
    four entries of [app], the second has been destroyed and the third
    is empty. *)
Definition zmq0 : Sink := mkSink (mkFilterer []) (ZMQPubSink "tcp://*:5555" "log").
Definition print0 : Sink := mkSink chain0 (PrintSink false).
Definition heap0 : Heap Sink := {[ 1%nat := zmq0; 3%nat := print0 ]}.
Definition app0 : Logger :=
  mkLogger (Some []) "/app" true ∅ [Owned 1; Owned 2; EmptyPtr; Owned 3].
Definition root0 : Logger := mkLogger None "" true {[ "app" := app0 ]} [Owned 2].

(** A node without children that holds the given sinks. *)
Definition leaf (s : list weak_ptr) : Logger := mkLogger None "" true ∅ s.

(** [n'] is the node [n] later on: the same members, and at least the
    children it had. *)
Definition keeps (n n' : Logger) : Prop :=
  parent n' = parent n /\ name n' = name n /\ propagate n' = propagate n
  /\ sinks n' = sinks n /\ dom (children n) ⊆ dom (children n').

(** [t'] is the tree [t] later on: every node of [t] is kept, and every
    node that is new has no sinks. *)
Definition grows (t t' : Logger) : Prop :=
  (forall q n, node_at q t = Some n -> exists n', node_at q t' = Some n' /\ keeps n n')
  /\ (forall q n', node_at q t' = Some n' -> node_at q t = None -> sinks n' = []).

(** The number of nodes of a tree, and the entries of a vector that
    [deattach_sink] is to keep. *)
Fixpoint Logger_size (l : Logger) : nat :=
  Datatypes.S (map_fold (fun _ c acc => (Logger_size c + acc)%nat) 0%nat (children l)).

Definition others (sink : weak_ptr) (s : list weak_ptr) : list weak_ptr :=
  filter (fun x => equals sink x = false) s.

(** The node holds exactly one entry of the sink. *)
Definition once (sink : weak_ptr) (n : Logger) : Prop :=
  (length (others sink (sinks n)) + 1 = length (sinks n))%nat.

(** The entries of a chain that [remove_filter] is to keep. *)
Definition other_filters (flt : shared_ptr Filter) (fs : list (shared_ptr Filter))
  : list (shared_ptr Filter) :=
  filter (fun g => shared_ptr_eq g flt = false) fs.

(** The escape sequence that ends a coloured level name. *)
Definition color_reset : string := esc +:+ "[0m".

(** Two filters, one that accepts every record and one at the address of
    [reject_all], to build chains from. *)
Definition accept_all : Filter := mkFilter 8 (fun _ => true).

(** A file sink, a heap with it, a record without source and a node
    whose third entry is the file sink. *)
Definition file0 : Sink := mkSink (mkFilterer []) (FileSink "out.log").
Definition heap1 : Heap Sink := {[ 1%nat := zmq0; 4%nat := file0 ]}.
Definition rec_unnamed : Log := mkLog "" 0%float INFO "start".
Definition node1 : Logger := leaf [Owned 1; Owned 2; Owned 4; Owned 2; Owned 1].

(** The naming of a tree whose root is at [this_ptr]: every child is
    named after its parent and its key, and points back to its parent. *)
Definition named (this_ptr : ptr) (t : Logger) : Prop :=
  forall q n k c, node_at q t = Some n -> children n !! k = Some c ->
    name c = name n +:+ "/" +:+ k /\ parent c = Some (this_ptr ++ q).


(** The segments of a name: its parts between the separators, so one
    more than it has separators; the empty name has one empty segment. *)
Fixpoint segments (s : string) : list string :=
  match s with
  | EmptyString => [EmptyString]
  | String a s' =>
      if Ascii.eqb a slash then EmptyString :: segments s'
      else match segments s' with
           | h :: t => String a h :: t
           | [] => [String a EmptyString]
           end
  end.

(** * Properties *)

(** ** The filter chain *)

Lemma filter_loop_chain log fl w :
  filter_loop (Some <$> fl) log w
  = (forallb (fun f => accepts f log) fl, w ++ (call_of log <$> asked log fl), Returned).
Proof.
  revert w. induction fl as [|f fl IH]; intros w; simpl.
  - by rewrite app_nil_r.
  - unfold asked. simpl. destruct (accepts f log) eqn:Hf; simpl.
    + rewrite IH. unfold asked. by rewrite <- app_assoc.
    + done.
Qed.

(** C6. For every chain of filters and every record, [Filterer::filter]
    returns the conjunction of what the members answer, and true exactly
    when every member accepts; the members it calls are, in order, those
    up to the first that rejects and none after it; the empty chain
    accepts and calls nothing. *)
Theorem Filterer_filter_conjunction (log : Log) (fl : list Filter) (w : World) :
  Filterer_filter (mkFilterer (Some <$> fl)) log w
  = (forallb (fun f => accepts f log) fl, w ++ (call_of log <$> asked log fl), Returned)
  /\ (forallb (fun f => accepts f log) fl = true <-> Forall (fun f => accepts f log = true) fl)
  /\ (forallb (fun f => accepts f log) fl = false <->
      exists pre f post, fl = pre ++ f :: post
        /\ Forall (fun g => accepts g log = true) pre
        /\ accepts f log = false
        /\ asked log fl = pre ++ [f])
  /\ Filterer_filter (mkFilterer []) log w = (true, w, Returned).
Proof.
  split; [apply filter_loop_chain|].
  split; [rewrite forallb_forall, Forall_forall; split; intros H x Hx;
          apply H; by apply list_elem_of_In|].
  split; [|reflexivity].
  induction fl as [|f fl IH]; simpl.
  - split; [discriminate|]. intros (pre & f & post & H & _). by destruct pre.
  - destruct (accepts f log) eqn:Hf; simpl.
    + rewrite IH. split.
      * intros (pre & g & post & -> & Hpre & Hg & Ha).
        exists (f :: pre), g, post. repeat split; [by constructor|done|].
        unfold asked in *. simpl. rewrite Hf. simpl. by f_equal.
      * intros (pre & g & post & Heq & Hpre & Hg & Ha).
        destruct pre as [|f' pre]; simplify_eq/=; [congruence|].
        exists pre, g, post. repeat split; [by inversion Hpre|done|].
        unfold asked in *. simpl in Ha. rewrite Hf in Ha. simpl in Ha. by simplify_eq.
    + split; [|done]. intros _. exists [], f, fl. repeat split; [constructor|done|].
      unfold asked. simpl. rewrite Hf. simpl. by rewrite take_0.
Qed.

(** C10. [Filterer::clear_filters] removes nothing: the chain is the one
    before, and [filter] answers and does afterwards what it did before. *)
Theorem clear_filters_keeps_chain (this : Filterer) (log : Log) (w : World) :
  filters (clear_filters this) = filters this
  /\ Filterer_filter (clear_filters this) log w = Filterer_filter this log w.
Proof. split; reflexivity. Qed.

(** ** The sinks of the repository *)

(** [PrintSink::handle] asks its chain first and writes nothing once the
    chain has rejected the record. *)
Lemma PrintSink_handle_rejected filterer with_color log w w' :
  Filterer_filter filterer log w = (false, w', Returned) ->
  PrintSink_handle filterer with_color log w = (w', Returned).
Proof. intros H. unfold PrintSink_handle. by rewrite H. Qed.

(** C9, at a sink whose chain rejects the record: [PrintSink::handle]
    only asks the chain, while [FileSink::handle] and
    [ZMQPubSink::handle] never ask it and write the record. *)
Theorem FileSink_ZMQPubSink_skip_filter (d : bool) :
  Filterer_filter chain0 rec0 [] = (false, [FilterCall 7 rec0], Returned)
  /\ Sink_handle d (mkSink chain0 (PrintSink false)) rec0 []
     = ([FilterCall 7 rec0], Returned)
  /\ Sink_handle d (mkSink chain0 (FileSink "out.log")) rec0 []
     = (FileWrite "out.log" <$>
          [Fixed 12 8 0%float; Text " "; Text "["; Text (LogLevel_toStr INFO d);
           Text "] "; Text "start"; Text " "; Text "("; Text "app";
           Text (")" +:+ String (ascii_of_nat 10) EmptyString)],
        Returned)
  /\ Sink_handle d (mkSink chain0 (ZMQPubSink "tcp://*:5555" "log")) rec0 []
     = ([ZmqSend "tcp://*:5555" "log" rec0], Returned).
Proof. repeat split. Qed.

(** ** Pointers into the tree *)

Lemma node_at_update_at p f root this :
  node_at p root = Some this ->
  node_at p (update_at p f root) = Some (f this).
Proof.
  revert root. induction p as [|k p IH]; intros root H; simpl in *.
  - by simplify_eq.
  - destruct (children root !! k) as [c|] eqn:Hk; [|done].
    simpl. rewrite lookup_insert_eq. by apply IH.
Qed.

Lemma update_at_ext p f g root this :
  node_at p root = Some this -> f this = g this ->
  update_at p f root = update_at p g root.
Proof.
  revert root. induction p as [|k p IH]; intros root H Hfg; simpl in *.
  - by simplify_eq.
  - destruct (children root !! k) as [c|] eqn:Hk; [|done].
    by rewrite (IH c).
Qed.

(** A change of the node at [p] that keeps its children shows in the
    fields of no other node. *)
Lemma update_at_frame p f root q :
  (forall l, children (f l) = children l) ->
  q <> p ->
  fields <$> node_at q (update_at p f root) = fields <$> node_at q root.
Proof.
  intros Hf. revert root q. induction p as [|k p IH]; intros root q Hq; simpl.
  - destruct q as [|k' q]; [done|]. simpl. by rewrite Hf.
  - destruct (children root !! k) as [c|] eqn:Hk; [|done].
    destruct q as [|k' q]; simpl.
    + unfold fields. simpl. rewrite dom_insert_lookup_L; [done|by rewrite Hk].
    + destruct (decide (k = k')) as [<-|Hne].
      * rewrite lookup_insert_eq, Hk. apply IH. congruence.
      * by rewrite lookup_insert_ne.
Qed.

(** ** Broadcast *)

Section BroadcastFacts.

Context {S : Type}.
Variable heap : Heap S.
Variable handle : S -> Log -> World -> World * completion.

(** The loop removes dead entries and nothing else, however it ends. *)
Lemma publish_loop_prunes log l w :
  exists kept w' c,
    publish_loop heap handle log l w = (kept, w', c)
    /\ kept `sublist_of` l
    /\ filter (live heap) kept = filter (live heap) l.
Proof.
  revert w. induction l as [|p l IH]; intros w; simpl.
  - by exists [], w, Returned.
  - destruct (lock heap p) as [sink|] eqn:Hp.
    + assert (live heap p) as Hl by (unfold live; by rewrite Hp).
      destruct (handle sink log w) as [w1 c1] eqn:Hh.
      destruct c1.
      * destruct (IH w1) as (kept & w' & c & -> & Hs & Hf).
        exists (p :: kept), w', c. split; [done|]. split; [by constructor|].
        rewrite !filter_cons_True by done. by f_equal.
      * by exists (p :: l), w1, Thrown.
      * by exists (p :: l), w1, Undefined.
    + assert (~ live heap p) as Hl by (unfold live; rewrite Hp; by intros [? ?]).
      destruct (IH w) as (kept & w' & c & -> & Hs & Hf).
      exists kept, w', c. split; [done|]. split; [by constructor|].
      by rewrite (filter_cons_False _ p l).
Qed.

(** When every sink reached returns, the loop keeps exactly the live
    entries and has called [handle] on each of them, in order. *)
Lemma publish_loop_returns log l w :
  (forall p sink w', p ∈ l -> lock heap p = Some sink ->
                     (handle sink log w').2 = Returned) ->
  publish_loop heap handle log l w
  = (filter (live heap) l,
     foldl (fun w sink => (handle sink log w).1) w (omap (lock heap) l),
     Returned).
Proof.
  revert w. induction l as [|p l IH]; intros w Hret; simpl; [done|].
  destruct (lock heap p) as [sink|] eqn:Hp.
  - assert (live heap p) as Hl by (unfold live; by rewrite Hp).
    pose proof (Hret p sink w (list_elem_of_here _ _) Hp) as Hr.
    destruct (handle sink log w) as [w1 c1] eqn:Hh. simpl in Hr. subst c1.
    rewrite IH by (intros q s' w' Hq; apply Hret; by constructor).
    rewrite filter_cons_True by done. simpl. by rewrite Hh.
  - assert (~ live heap p) as Hl by (unfold live; rewrite Hp; by intros [? ?]).
    rewrite IH by (intros q s' w' Hq; apply Hret; by constructor).
    by rewrite filter_cons_False by done.
Qed.

(** C1. One call of [publish_log] on a node whose sinks all return:
    the node keeps exactly the entries that resolve, in their order, so
    every entry that fails to resolve is gone; and the world afterwards
    is the world before in which [handle] has run once for each entry
    that resolves, in the order of the collection. *)
Theorem publish_log_delivers (log : Log) (this : Logger) (w : World) :
  (forall p sink w', p ∈ sinks this -> lock heap p = Some sink ->
                     (handle sink log w').2 = Returned) ->
  publish_log heap handle log this w
  = (set_sinks this (filter (live heap) (sinks this)),
     foldl (fun w sink => (handle sink log w).1) w (omap (lock heap) (sinks this)),
     Returned).
Proof.
  intros Hret. unfold publish_log. by rewrite publish_loop_returns.
Qed.

(** C7. A call of [publish_log] through a pointer [p] into the tree:
    the node at [p] afterwards is the node before with some dead entries
    of its own [sinks] taken out and nothing else changed; every other
    node has the fields it had (parent, name, propagate flag, keys of
    its children, sinks); and what is delivered is decided by the sinks
    of the node alone: a node with the same [sinks] and any other
    parent, propagate flag, name or children delivers the same. *)
Theorem publish_log_at_frame (p : ptr) (log : Log) (root : Logger) (w : World)
    (this : Logger) :
  node_at p root = Some this ->
  exists root' w' c kept,
    publish_log_at heap handle p log root w = Some (root', w', c)
    /\ node_at p root' = Some (set_sinks this kept)
    /\ kept `sublist_of` sinks this
    /\ filter (live heap) kept = filter (live heap) (sinks this)
    /\ (forall q, q <> p -> fields <$> node_at q root' = fields <$> node_at q root)
    /\ (forall other, sinks other = sinks this ->
          publish_log heap handle log other w = (set_sinks other kept, w', c)).
Proof.
  intros Hp. unfold publish_log_at, publish_log. rewrite Hp.
  destruct (publish_loop_prunes log (sinks this) w) as (kept & w' & c & Hl & Hs & Hf).
  rewrite Hl. eexists _, w', c, kept. split; [done|].
  split; [by apply (node_at_update_at p (fun _ => set_sinks this kept) root this)|].
  split; [done|]. split; [done|]. split.
  - intros q Hq.
    rewrite (update_at_ext p _ (fun n => set_sinks n kept) root this) by done.
    by apply update_at_frame.
  - intros other Ho. by rewrite Ho, Hl.
Qed.

End BroadcastFacts.

Lemma publish_log_delivers_witness :
  publish_log heap0 (Sink_handle false) rec0 app0 []
  = (set_sinks app0 [Owned 1; Owned 3],
     [ZmqSend "tcp://*:5555" "log" rec0; FilterCall 7 rec0],
     Returned).
Proof.
  rewrite (publish_log_delivers heap0 (Sink_handle false) rec0 app0 []).
  - vm_compute. reflexivity.
  - intros p sink w' Hp Hl. simpl in Hp.
    rewrite !elem_of_cons, elem_of_nil in Hp.
    destruct Hp as [->|[->|[->|[->|[]]]]]; vm_compute in Hl; simplify_eq; reflexivity.
Defined.

Lemma publish_log_at_frame_witness :
  exists root' w' c kept,
    publish_log_at heap0 (Sink_handle false) ["app"] rec0 root0 [] = Some (root', w', c)
    /\ node_at ["app"] root' = Some (set_sinks app0 kept)
    /\ kept `sublist_of` sinks app0
    /\ filter (live heap0) kept = filter (live heap0) (sinks app0)
    /\ (forall q, q <> ["app"] -> fields <$> node_at q root' = fields <$> node_at q root0)
    /\ (forall other, sinks other = sinks app0 ->
          publish_log heap0 (Sink_handle false) rec0 other []
          = (set_sinks other kept, w', c)).
Proof.
  apply (publish_log_at_frame heap0 (Sink_handle false) ["app"] rec0 root0 [] app0).
  reflexivity.
Defined.

(** ** The erase-remove idiom *)

Section EraseRemove.

Context {A : Type}.
Variable pred : A -> bool.
Variable moved : A.

Local Open Scope nat_scope.

(** The elements that [std::remove_if] is to keep. *)
Local Abbreviation stays := (fun x => pred x = false).

Lemma find_if_spec v :
  find_if pred v <= length v
  /\ filter stays (take (find_if pred v) v) = take (find_if pred v) v
  /\ (find_if pred v < length v ->
      exists x, v !! find_if pred v = Some x /\ pred x = true).
Proof.
  induction v as [|a v (IH1 & IH2 & IH3)]; simpl.
  - repeat split; [lia|]. intros H. lia.
  - destruct (pred a) eqn:Ha; simpl.
    + repeat split; [lia|]. intros _. by exists a.
    + rewrite filter_cons_True by done. rewrite IH2.
      repeat split; [lia|]. intros H. apply IH3. lia.
Qed.

Lemma filter_take_S v i x :
  v !! i = Some x ->
  filter stays (take (S i) v)
  = filter stays (take i v) ++ (if pred x then [] else [x]).
Proof.
  intros H. rewrite (take_S_r _ _ _ H), filter_app. f_equal.
  destruct (pred x) eqn:Hx.
  - by rewrite filter_cons_False by (rewrite Hx; done).
  - by rewrite filter_cons_True by done.
Qed.

(** The state of the loop of [std::remove_if] after [k] rounds behind the
    first match at [f]: the elements to keep of the part read are at the
    front, in order, and the part not yet read is untouched. *)
Lemma remove_loop_invariant v f x k :
  v !! f = Some x -> pred x = true ->
  filter stays (take f v) = take f v ->
  S f + k <= length v ->
  exists vi ri,
    foldl (remove_step pred moved) (v, f) (seq (S f) k) = (vi, ri)
    /\ length vi = length v
    /\ take ri vi = filter stays (take (S f + k) v)
    /\ ri = length (filter stays (take (S f + k) v))
    /\ drop (S f + k) vi = drop (S f + k) v
    /\ ri < S f + k.
Proof.
  intros Hf Hx Hpre. induction k as [|k IH]; intros Hk.
  - exists v, f. rewrite Nat.add_0_r, (filter_take_S _ _ _ Hf), Hx, app_nil_r, Hpre.
    pose proof (lookup_lt_Some _ _ _ Hf).
    repeat split; [|lia]. rewrite length_take. lia.
  - destruct IH as (vi & ri & Hfold & Hlen & Htake & Hri & Hdrop & Hlt); [lia|].
    rewrite seq_S, foldl_app, Hfold. cbn [foldl].
    replace (S f + S k) with (S (S f + k)) by lia.
    set (i := S f + k) in *. unfold remove_step.
    assert (i < length v) as Hi by lia.
    destruct (lookup_lt_is_Some_2 v i Hi) as [y Hy].
    assert (vi !! i = Some y) as Hvi.
    { rewrite <- Hy. rewrite <- (Nat.add_0_r i), <- !lookup_drop. by rewrite Hdrop. }
    rewrite Hvi, (filter_take_S _ _ _ Hy).
    assert (forall l l' : list A, drop i l = drop i l' -> drop (S i) l = drop (S i) l')
      as Hstep.
    { intros l l' H. replace (S i) with (i + 1) by lia.
      rewrite <- !drop_drop. by rewrite H. }
    destruct (pred y) eqn:Hpy.
    + exists vi, ri. rewrite app_nil_r.
      repeat split; [done|done|done|by apply Hstep|lia].
    + eexists _, _. split; [done|].
      rewrite !length_insert, length_app. simpl.
      repeat split; [done| |lia| |lia].
      * rewrite take_insert_ge by lia.
        rewrite (take_S_r _ _ y) by (apply list_lookup_insert_eq; lia).
        rewrite take_insert_ge by lia. by rewrite Htake.
      * rewrite !drop_insert_lt by lia. by apply Hstep.
Qed.

(** [std::remove_if]: the size of the vector is kept, the iterator
    returned is behind the elements to keep, and these are at the front
    in their order. *)
Lemma remove_if_spec v :
  exists v' new_end,
    remove_if pred moved v = (v', new_end)
    /\ length v' = length v
    /\ new_end = length (filter stays v)
    /\ take new_end v' = filter stays v.
Proof.
  unfold remove_if. destruct (find_if_spec v) as (Hle & Hpre & Hx).
  case_decide as Hf.
  - exists v, (length v). rewrite Hf, take_ge in Hpre by lia.
    rewrite Hpre, take_ge, Hf by lia. done.
  - destruct Hx as (x & Hx & Hp); [lia|].
    destruct (remove_loop_invariant v _ x (length v - S (find_if pred v)) Hx Hp Hpre)
      as (vi & ri & -> & Hlen & Htake & Hri & _); [lia|].
    replace (S (find_if pred v) + (length v - S (find_if pred v))) with (length v)
      in * by lia.
    rewrite (take_ge v) in Htake, Hri by lia. by exists vi, ri.
Qed.

Lemma filter_stays_all v :
  length (filter stays v) = length v -> filter stays v = v.
Proof.
  induction v as [|a v IH]; [done|]. destruct (pred a) eqn:Ha.
  - rewrite filter_cons_False by (rewrite Ha; done).
    pose proof (length_filter stays v). simpl. lia.
  - rewrite filter_cons_True by done. simpl. intros H. f_equal. apply IH. lia.
Qed.

(** The idiom with one iterator given to [erase]: without a match the
    erase is undefined; with [m + 1] matches the elements to keep are
    followed by [m] left-overs of the old tail. *)
Lemma erase_remove_spec v :
  let '(v', new_end) := remove_if pred moved v in
  match vector_erase v' new_end with
  | None => filter stays v = v
  | Some r =>
      exists rest, r = filter stays v ++ rest
        /\ length (filter stays v) + S (length rest) = length v
  end.
Proof.
  destruct (remove_if_spec v) as (v' & r & -> & Hlen & Hr & Htake).
  unfold vector_erase. case_decide as Hd.
  - exists (drop (S r) v'). rewrite delete_take_drop, Htake. split; [done|].
    rewrite length_drop. lia.
  - pose proof (length_filter stays v) as Hl.
    apply filter_stays_all. lia.
Qed.

End EraseRemove.

(** ** Unsubscription *)

(** [equals] is identity of the control block, resolvable or not. *)
Lemma equals_iff t u : equals t u = true <-> t = u.
Proof.
  unfold equals, owner_before.
  rewrite negb_true_iff, orb_false_iff, !bool_decide_eq_false.
  destruct t, u; simpl; split; intros H; simplify_eq; try lia; try done.
  f_equal. lia.
Qed.

Lemma find_if_none {A} (pred : A -> bool) (v : list A) :
  Forall (fun x => pred x = false) v -> find_if pred v = length v.
Proof. induction 1 as [|x v Hx _ IH]; simpl; [done|]. by rewrite Hx, IH. Qed.

(** Without a matching entry, [std::remove_if] returns [end()], and the
    erase of that iterator is undefined. *)
Lemma deattach_sink_absent sink this :
  Forall (fun s => equals sink s = false) (sinks this) ->
  deattach_sink sink this = None.
Proof.
  intros H. destruct this as [pa na pr ch sk]. simpl in *.
  unfold remove_if. rewrite (find_if_none (fun s => equals sink s) sk H).
  rewrite decide_True by done. unfold vector_erase.
  by rewrite decide_False by lia.
Qed.

Lemma Logger_size_child l k c :
  children l !! k = Some c -> (Logger_size c < Logger_size l)%nat.
Proof.
  destruct l as [pa na pr ch sk]. simpl. intros H.
  rewrite (map_fold_delete_L _ _ k c ch); [lia| |done].
  intros. lia.
Qed.

(** Induction on the tree: a property that holds of a node whenever it
    holds of its children holds of every node. *)
Lemma Logger_tree_ind (P : Logger -> Prop) :
  (forall l, (forall k c, children l !! k = Some c -> P c) -> P l) ->
  forall l, P l.
Proof.
  intros H l. remember (Logger_size l) as n eqn:Hn. revert l Hn.
  induction n as [n IH] using lt_wf_ind. intros l ->.
  apply H. intros k c Hk. apply (IH (Logger_size c)); [|done].
  by eapply Logger_size_child.
Qed.

(** X21. Where every node under [this] holds exactly one entry of the
    sink, as after one subscription and no later [get] below,
    [deattach_sink] is defined and takes that entry out of every node,
    leaving the other entries and the other fields as they are. *)
Lemma deattach_sink_once sink this :
  (forall q n, node_at q this = Some n -> once sink n) ->
  exists this',
    deattach_sink sink this = Some this'
    /\ forall q,
        fields <$> node_at q this'
        = (fun n => (parent n, name n, propagate n, dom (children n),
                     others sink (sinks n))) <$> node_at q this.
Proof.
  induction this as [this IH] using Logger_tree_ind. intros Hall.
  assert (forall k c, children this !! k = Some c ->
            exists c', deattach_sink sink c = Some c'
              /\ forall q, fields <$> node_at q c'
                   = (fun n => (parent n, name n, propagate n, dom (children n),
                                others sink (sinks n))) <$> node_at q c) as IH'.
  { intros k c Hk. apply (IH k c Hk). intros q n Hq. apply (Hall (k :: q)).
    simpl. by rewrite Hk. }
  pose proof (Hall [] this eq_refl) as Honce. unfold once, others in Honce.
  destruct this as [pa na pr ch sk]. simpl in *.
  pose proof (erase_remove_spec (fun s => equals sink s) EmptyPtr sk) as Her.
  destruct (remove_if _ _ sk) as [v' r].
  destruct (vector_erase v' r) as [sk'|]; [|rewrite Her in Honce; lia].
  destruct Her as (rest & -> & Hrest).
  destruct rest as [|? ?]; [|simpl in Hrest; lia]. rewrite app_nil_r.
  rewrite bool_decide_eq_true_2; last first.
  { intros k o. rewrite lookup_fmap. destruct (ch !! k) as [c|] eqn:Hk; [|done].
    simpl. destruct (IH' k c Hk) as (c' & -> & _). by intros [= <-]. }
  eexists. split; [done|]. intros [|k q]; simpl.
  - unfold fields. simpl. do 2 f_equal. f_equal. apply set_eq. intros k.
    rewrite !elem_of_dom, lookup_omap, lookup_fmap.
    destruct (ch !! k) as [c|] eqn:Hk; simpl; [|done].
    destruct (IH' k c Hk) as (c' & -> & _). done.
  - rewrite lookup_omap, lookup_fmap.
    destruct (ch !! k) as [c|] eqn:Hk; simpl; [|done].
    destruct (IH' k c Hk) as (c' & -> & Hq). simpl. apply Hq.
Qed.

(** C4, at nodes that hold the sink twice, where only the other entries
    should stay: after [deattach_sink] one of the two entries is still
    there; with another sink behind the two, it is that sink's entry
    that has given way to an empty reference. *)
Theorem deattach_sink_keeps_duplicate :
  others (Owned 1) [Owned 1; Owned 1] = []
  /\ deattach_sink (Owned 1) (leaf [Owned 1; Owned 1]) = Some (leaf [Owned 1])
  /\ deattach_sink (Owned 1) (leaf [Owned 1; Owned 2; Owned 1])
     = Some (leaf [Owned 2; Owned 1])
  /\ deattach_sink (Owned 1) (leaf [Owned 1; Owned 1; Owned 2])
     = Some (leaf [Owned 2; EmptyPtr]).
Proof. repeat split; vm_compute; reflexivity. Qed.

(** C5, at nodes without an entry of the sink: [deattach_sink] erases at
    the end iterator, which is undefined, for a node with other sinks,
    for a node with none, and for a node that holds the sink while a
    child of it does not. *)
Theorem deattach_sink_absent_undefined :
  deattach_sink (Owned 2) (leaf [Owned 1]) = None
  /\ deattach_sink (Owned 2) (leaf []) = None
  /\ deattach_sink (Owned 1)
       (mkLogger None "" true {[ "net" := leaf [] ]} [Owned 1]) = None.
Proof. repeat split; vm_compute; reflexivity. Qed.

(** ** Path resolution *)

Lemma string_drop_length n s :
  String.length (string_drop n s) = (String.length s - n)%nat.
Proof.
  revert s. induction n as [|n IH]; intros [|a s]; simpl; done.
Qed.

(** From position 0 neither [substr] nor [erase] throws. *)
Lemma string_substr_0 s count :
  string_substr s 0 count
  = Some (string_take (Z.to_nat (Z.min count (Z.of_nat (String.length s)))) s).
Proof.
  unfold string_substr.
  replace (Z.of_nat (String.length s) <? 0) with false by (symmetry; apply Z.ltb_ge; lia).
  by rewrite Z.sub_0_r.
Qed.

Lemma string_erase_0 s count :
  string_erase s 0 count
  = Some (string_drop (Z.to_nat (Z.min count (Z.of_nat (String.length s)))) s).
Proof.
  unfold string_erase.
  replace (Z.of_nat (String.length s) <? 0) with false by (symmetry; apply Z.ltb_ge; lia).
  by rewrite Z.sub_0_r, Z.add_0_l.
Qed.

(** When the comparison with [npos] fails, the count given to [erase] is
    at least one, whatever [find] returned. *)
Lemma erase_count_pos z :
  size_t_of (int_of z) <> npos -> 1 <= size_t_of (int_of (int_of z + 1)).
Proof.
  unfold size_t_of, int_of, npos.
  change (2 ^ 64) with 18446744073709551616.
  change (2 ^ 32) with 4294967296. change (2 ^ 31) with 2147483648.
  intros H. Z.div_mod_to_equations. lia.
Qed.

Lemma find_empty_npos c : size_t_of (int_of (string_find EmptyString c)) = npos.
Proof. reflexivity. Qed.

(** The tail handed down the tree is shorter than the name. *)
Lemma tail_shorter logger_name tail :
  let delim_index := int_of (string_find logger_name slash) in
  size_t_of delim_index <> npos ->
  string_erase logger_name 0 (size_t_of (int_of (delim_index + 1))) = Some tail ->
  (String.length tail < String.length logger_name)%nat.
Proof.
  intros d Hd. subst d. rewrite string_erase_0. intros [= <-].
  rewrite string_drop_length.
  pose proof (erase_count_pos _ Hd) as Hc.
  destruct logger_name as [|a s]; [by rewrite find_empty_npos in Hd|].
  simpl String.length in *. lia.
Qed.

Lemma ensure_child_lookup this_ptr k this k' :
  children (ensure_child this_ptr k this) !! k'
  = match children this !! k' with
    | Some c => Some c
    | None =>
        if decide (k = k')
        then Some (Logger_new (Some this_ptr) (name this +:+ "/" +:+ k) propagate_default)
        else None
    end.
Proof.
  unfold ensure_child. destruct (children this !! k) as [c|] eqn:Hk.
  - destruct (children this !! k') eqn:Hk'; [done|].
    case_decide; [congruence|done].
  - simpl. case_decide as Hkk.
    + subst k'. by rewrite lookup_insert_eq, Hk.
    + rewrite lookup_insert_ne by done. by destruct (children this !! k').
Qed.

Lemma ensure_child_present this_ptr k this c :
  children this !! k = Some c -> ensure_child this_ptr k this = this.
Proof. intros H. unfold ensure_child. by rewrite H. Qed.

Lemma ensure_child_keeps this_ptr k this : keeps this (ensure_child this_ptr k this).
Proof.
  unfold ensure_child, keeps. destruct (children this !! k); simpl.
  - repeat split; done.
  - repeat split; try done. rewrite dom_insert_L. set_solver.
Qed.

Lemma get_rec_S fuel this_ptr logger_name this :
  get_rec (Datatypes.S fuel) this_ptr logger_name this
  = let delim_index := int_of (string_find logger_name slash) in
    head ← string_substr logger_name 0 (size_t_of delim_index);
    let this := ensure_child this_ptr head this in
    if decide (size_t_of delim_index = npos) then
      match children this !! head with
      | Some _ => Some (this, Some (this_ptr ++ [head]))
      | None => Some (this, None)
      end
    else
      tail ← string_erase logger_name 0 (size_t_of (int_of (delim_index + 1)));
      match children this !! head with
      | Some child =>
          '(child', r) ← get_rec fuel (this_ptr ++ [head]) tail child;
          Some (set_children this (<[head := child']> (children this)), r)
      | None => Some (this, None)
      end.
Proof. reflexivity. Qed.

(** Resolving a path a second time finds the nodes of the first time. *)
Lemma get_rec_idempotent fuel this_ptr logger_name this this' r :
  get_rec fuel this_ptr logger_name this = Some (this', r) ->
  get_rec fuel this_ptr logger_name this' = Some (this', r).
Proof.
  revert this_ptr logger_name this this' r.
  induction fuel as [|fuel IH]; intros this_ptr logger_name this this' r; [done|].
  rewrite !get_rec_S. cbv zeta.
  destruct (string_substr logger_name 0 _) as [head|]; [|done]. cbn [mbind option_bind].
  pose proof (ensure_child_lookup this_ptr head this head) as Hl.
  assert (is_Some (children (ensure_child this_ptr head this) !! head)) as [child Hc].
  { rewrite Hl. destruct (children this !! head); [done|]. by rewrite decide_True. }
  clear Hl. rewrite Hc.
  case_decide as Hd.
  - intros [= <- <-]. by rewrite (ensure_child_present _ _ _ child), Hc.
  - destruct (string_erase logger_name 0 _) as [tail|]; [|done]. cbn [mbind option_bind].
    destruct (get_rec fuel (this_ptr ++ [head]) tail child) as [[child' r']|] eqn:Hg; [|done].
    cbn [mbind option_bind]. intros [= <- <-].
    rewrite (ensure_child_present _ _ _ child') by (simpl; by rewrite lookup_insert_eq).
    simpl. rewrite lookup_insert_eq.
    rewrite (IH _ _ _ _ _ Hg). cbn [mbind option_bind].
    by rewrite insert_insert_eq.
Qed.

Lemma keeps_refl n : keeps n n.
Proof. by repeat split. Qed.

Lemma keeps_trans n1 n2 n3 : keeps n1 n2 -> keeps n2 n3 -> keeps n1 n3.
Proof.
  intros (?&?&?&?&?) (?&?&?&?&?). repeat split; try congruence. set_solver.
Qed.

Lemma grows_trans t1 t2 t3 : grows t1 t2 -> grows t2 t3 -> grows t1 t3.
Proof.
  intros [Ha1 Ha2] [Hb1 Hb2]. split.
  - intros q n H. destruct (Ha1 q n H) as (n2 & H2 & Hk2).
    destruct (Hb1 q n2 H2) as (n3 & H3 & Hk3).
    exists n3. split; [done|by eapply keeps_trans].
  - intros q n3 H3 H1. destruct (node_at q t2) as [n2|] eqn:H2.
    + destruct (Hb1 q n2 H2) as (n3' & H3' & Hk). simplify_eq.
      destruct Hk as (_&_&_&->&_). by apply (Ha2 q).
    + by apply (Hb2 q).
Qed.

Lemma node_at_new q parent name propagate n :
  node_at q (Logger_new parent name propagate) = Some n ->
  q = [] /\ n = Logger_new parent name propagate.
Proof. destruct q as [|k q]; simpl; [by intros [= <-]|by rewrite lookup_empty]. Qed.

Lemma grows_ensure_child this_ptr k t : grows t (ensure_child this_ptr k t).
Proof.
  split.
  - intros [|k' q] n H; simpl in *.
    + simplify_eq. eexists. split; [done|apply ensure_child_keeps].
    + rewrite ensure_child_lookup. destruct (children t !! k') as [c|]; [|done].
      exists n. split; [done|apply keeps_refl].
  - intros [|k' q] n' H1 H2; simpl in *; [done|].
    rewrite ensure_child_lookup in H1.
    destruct (children t !! k') as [c|]; [congruence|].
    case_decide; [|done]. by apply node_at_new in H1 as [_ ->].
Qed.

Lemma grows_child k t c c' :
  children t !! k = Some c -> grows c c' ->
  grows t (set_children t (<[k := c']> (children t))).
Proof.
  intros Hk [Hc1 Hc2]. split.
  - intros [|k' q] n H; simpl in *.
    + simplify_eq. eexists. split; [done|].
      repeat split; try done. simpl. rewrite dom_insert_L. set_solver.
    + destruct (decide (k = k')) as [<-|Hne].
      * rewrite lookup_insert_eq. rewrite Hk in H. by apply Hc1.
      * rewrite lookup_insert_ne by done. destruct (children t !! k'); [|done].
        exists n. split; [done|apply keeps_refl].
  - intros [|k' q] n' H1 H2; simpl in *; [done|].
    destruct (decide (k = k')) as [<-|Hne].
    + rewrite lookup_insert_eq in H1. rewrite Hk in H2. by apply (Hc2 q).
    + rewrite lookup_insert_ne in H1 by done.
      destruct (children t !! k'); congruence.
Qed.

(** With a bound above the length of the name, [get_rec] returns a
    pointer to a node of the tree it leaves, and that tree is the one
    before, grown. *)
Lemma get_rec_spec fuel this_ptr logger_name this :
  (String.length logger_name < fuel)%nat ->
  exists this' rel,
    get_rec fuel this_ptr logger_name this = Some (this', Some (this_ptr ++ rel))
    /\ is_Some (node_at rel this')
    /\ grows this this'.
Proof.
  revert this_ptr logger_name this.
  induction fuel as [|fuel IH]; intros this_ptr logger_name this Hlen; [lia|].
  rewrite get_rec_S. cbv zeta. rewrite string_substr_0. cbn [mbind option_bind].
  set (head := string_take _ logger_name).
  pose proof (grows_ensure_child this_ptr head this) as Hg.
  assert (is_Some (children (ensure_child this_ptr head this) !! head)) as [child Hc].
  { rewrite ensure_child_lookup. destruct (children this !! head); [done|].
    by rewrite decide_True. }
  rewrite Hc. case_decide as Hd.
  - eexists _, [head]. split; [done|]. split; [|done]. simpl. by rewrite Hc.
  - destruct (string_erase logger_name 0 _) as [tail|] eqn:He;
      [|by rewrite string_erase_0 in He].
    cbn [mbind option_bind].
    pose proof (tail_shorter logger_name tail Hd He) as Ht.
    destruct (IH (this_ptr ++ [head]) tail child) as (child' & rel & -> & Hn & Hgc); [lia|].
    cbn [mbind option_bind]. eexists _, (head :: rel).
    split; [by rewrite <- app_assoc|]. split.
    + simpl. by rewrite lookup_insert_eq.
    + eapply grows_trans; [done|]. by eapply grows_child.
Qed.

Lemma node_at_app q q' t :
  node_at (q ++ q') t = node_at q t ≫= node_at q'.
Proof.
  revert t. induction q as [|k q IH]; intros t; simpl; [done|].
  destruct (children t !! k); [apply IH|done].
Qed.

(** The bound of [Logger_get] is no restriction: above the length of the
    name, every bound gives the same result. *)
Lemma get_rec_fuel fuel1 fuel2 this_ptr logger_name this :
  (String.length logger_name < fuel1)%nat ->
  (String.length logger_name < fuel2)%nat ->
  get_rec fuel1 this_ptr logger_name this = get_rec fuel2 this_ptr logger_name this.
Proof.
  revert fuel2 this_ptr logger_name this.
  induction fuel1 as [|fuel1 IH]; intros [|fuel2] this_ptr logger_name this H1 H2;
    try lia.
  rewrite !get_rec_S. cbv zeta.
  destruct (string_substr logger_name 0 _) as [head|]; [|done]. cbn [mbind option_bind].
  case_decide as Hd; [done|].
  destruct (string_erase logger_name 0 _) as [tail|] eqn:He; [|done].
  cbn [mbind option_bind].
  pose proof (tail_shorter logger_name tail Hd He) as Ht.
  destruct (children _ !! head) as [child|]; [|done].
  by rewrite (IH fuel2) by lia.
Qed.

Lemma Logger_get_spec this_ptr logger_name this :
  exists this' rel,
    Logger_get this_ptr logger_name this = Some (this', Some (this_ptr ++ rel))
    /\ is_Some (node_at rel this')
    /\ grows this this'.
Proof. apply get_rec_spec. lia. Qed.

(** Without separator a name is its only segment; with one, its segments
    are the part before the first separator and the segments of the part
    behind it. *)
Lemma find_from_segments s j :
  match find_from slash s j with
  | None => segments s = [s]
  | Some i =>
      exists i0, i = (j + i0)%nat /\ (i0 < String.length s)%nat
        /\ segments s = string_take i0 s :: segments (string_drop (Datatypes.S i0) s)
  end.
Proof.
  revert j. induction s as [|a s IH]; intros j; [done|].
  cbn [find_from segments]. destruct (Ascii.eqb a slash) eqn:Ha.
  - exists 0%nat. split; [lia|]. split; [simpl; lia|done].
  - specialize (IH (Datatypes.S j)). destruct (find_from slash s (Datatypes.S j)) as [i|].
    + destruct IH as (i0 & -> & Hlt & ->). exists (Datatypes.S i0).
      split; [lia|]. split; [simpl; lia|done].
    + by rewrite IH.
Qed.

(** For a name shorter than 2^31 the conversions of [get] are exact, and
    the head and the tail that [get] computes are the first segment and
    the name of the other segments. *)
Lemma get_split_segments logger_name :
  Z.of_nat (String.length logger_name) < 2 ^ 31 ->
  let delim_index := int_of (string_find logger_name slash) in
  (size_t_of delim_index = npos ->
     string_substr logger_name 0 (size_t_of delim_index) = Some logger_name
     /\ segments logger_name = [logger_name])
  /\ (size_t_of delim_index <> npos ->
       exists head tail,
         string_substr logger_name 0 (size_t_of delim_index) = Some head
         /\ string_erase logger_name 0 (size_t_of (int_of (delim_index + 1))) = Some tail
         /\ segments logger_name = head :: segments tail).
Proof.
  intros Hlen. cbv zeta. rewrite string_substr_0, string_erase_0.
  unfold string_find. pose proof (find_from_segments logger_name 0) as Hseg.
  destruct (find_from slash logger_name 0) as [i|].
  - destruct Hseg as (i0 & -> & Hlt & Hs). simpl in *.
    assert (int_of (Z.of_nat i0) = Z.of_nat i0) as Hi.
    { unfold int_of. change (2 ^ 32) with 4294967296 in *.
      change (2 ^ 31) with 2147483648 in *. rewrite Z.mod_small; lia. }
    assert (int_of (Z.of_nat i0 + 1) = Z.of_nat i0 + 1) as Hi1.
    { unfold int_of. change (2 ^ 32) with 4294967296 in *.
      change (2 ^ 31) with 2147483648 in *. rewrite Z.mod_small; lia. }
    assert (forall z, 0 <= z < 2 ^ 31 -> size_t_of z = z) as Hsz.
    { intros z Hz. unfold size_t_of. change (2 ^ 31) with 2147483648 in *.
      change (2 ^ 64) with 18446744073709551616. rewrite Z.mod_small; lia. }
    rewrite Hi, Hi1, !Hsz by lia. split.
    + unfold npos. change (2 ^ 64) with 18446744073709551616.
      change (2 ^ 31) with 2147483648 in *. lia.
    + intros _. eexists _, _. split; [done|]. split; [done|].
      replace (Z.to_nat (Z.of_nat i0 `min` Z.of_nat (String.length logger_name)))
        with i0 by lia.
      replace (Z.to_nat ((Z.of_nat i0 + 1) `min` Z.of_nat (String.length logger_name)))
        with (Datatypes.S i0) by lia.
      exact Hs.
  - split; [|done]. intros _. split; [|done]. f_equal.
    assert (forall n s, (String.length s <= n)%nat -> string_take n s = s) as Hall.
    { induction n as [|n IHn]; intros [|a s]; simpl; intros H; try done; [lia|].
      f_equal. apply IHn. lia. }
    apply Hall. change (size_t_of (int_of npos)) with npos. unfold npos.
    change (2 ^ 64) with 18446744073709551616.
    change (2 ^ 31) with 2147483648 in *. lia.
Qed.

(** The pointer of a call that returns is a path of at least one key; the
    nodes of the tree afterwards that the tree before did not have are
    on that path; and for a name shorter than 2^31 the keys of the path
    are the segments of the name. *)
Lemma get_rec_path fuel this_ptr logger_name this this' rel :
  (String.length logger_name < fuel)%nat ->
  get_rec fuel this_ptr logger_name this = Some (this', Some (this_ptr ++ rel)) ->
  rel <> []
  /\ (forall q, is_Some (node_at q this') ->
        is_Some (node_at q this) \/ q `prefix_of` rel)
  /\ (Z.of_nat (String.length logger_name) < 2 ^ 31 -> rel = segments logger_name).
Proof.
  revert this_ptr logger_name this this' rel.
  induction fuel as [|fuel IH]; intros this_ptr logger_name this this' rel Hlen; [lia|].
  rewrite get_rec_S. cbv zeta.
  pose proof (get_split_segments logger_name) as Hsplit. cbv zeta in Hsplit.
  destruct (string_substr logger_name 0 _) as [head|] eqn:Hhead;
    [|by rewrite string_substr_0 in Hhead].
  cbn [mbind option_bind].
  pose proof (ensure_child_lookup this_ptr head this) as Hlook.
  assert (is_Some (children (ensure_child this_ptr head this) !! head)) as [child Hc].
  { rewrite Hlook. destruct (children this !! head); [done|]. by rewrite decide_True. }
  rewrite Hc. case_decide as Hd.
  - intros [= <- Hrel%app_inv_head]. subst rel. split; [done|]. split.
    + intros [|k q] Hq; [left; by eexists|]. simpl in Hq. rewrite Hlook in Hq.
      destruct (children this !! k) as [c|] eqn:Hk; [left; simpl; by rewrite Hk|].
      case_decide as Hkk; [|by destruct Hq]. subst k. destruct Hq as [n Hq].
      apply node_at_new in Hq as [-> _]. by right.
    + intros Hshort. destruct (Hsplit Hshort) as [Hwhole _].
      destruct (Hwhole Hd) as [Hh ->]. congruence.
  - destruct (string_erase logger_name 0 _) as [tail|] eqn:He; [|done].
    cbn [mbind option_bind].
    pose proof (tail_shorter logger_name tail Hd He) as Ht.
    destruct (get_rec_spec fuel (this_ptr ++ [head]) tail child)
      as (child' & rel' & Hg & _); [lia|].
    rewrite Hg. cbn [mbind option_bind].
    rewrite <- app_assoc. intros [= <- Hrel%app_inv_head]. subst rel.
    destruct (IH (this_ptr ++ [head]) tail child child' rel' ltac:(lia) Hg)
      as (_ & Hnew & Hkeys).
    split; [done|]. split.
    + intros [|k q] Hq; [left; by eexists|]. simpl in Hq.
      destruct (decide (head = k)) as [<-|Hne].
      * rewrite lookup_insert_eq in Hq.
        destruct (Hnew q Hq) as [Hold|Hpre]; [|right; by apply prefix_cons].
        rewrite Hlook in Hc. destruct (children this !! head) as [c|] eqn:Hk.
        -- left. simpl. rewrite Hk. congruence.
        -- rewrite decide_True in Hc by done. injection Hc as <-.
           destruct Hold as [n Hn]. apply node_at_new in Hn as [-> _].
           right. apply prefix_cons, prefix_nil.
      * rewrite lookup_insert_ne in Hq by done. rewrite Hlook in Hq.
        destruct (children this !! k) as [c|] eqn:Hk; [left; simpl; by rewrite Hk|].
        rewrite decide_False in Hq by done. by destruct Hq.
    + intros Hshort. destruct (Hsplit Hshort) as [_ Hparts].
      destruct (Hparts Hd) as (head' & tail' & Hh' & Ht' & ->).
      assert (head' = head) as -> by congruence.
      assert (tail' = tail) as -> by congruence.
      f_equal. apply Hkeys. lia.
Qed.

(** C8. For every name, the empty one and those with empty segments or a
    separator at the end included, [Logger::get] returns, and what it
    returns is a pointer, not null, along a path of at least one key
    under the node it started from. In the tree it leaves, every node on
    that path exists, so each one that was missing has been created;
    every node of the tree before is still there; a node that is new is
    on the path and has no sinks. For a name shorter than 2^31 the keys
    of the path are the segments of the name, one node for each.
    [logging::get], the call on the root logger, returns a pointer into
    the tree likewise. *)
Theorem Logger_get_never_fails (this_ptr : ptr) (logger_name : string) (this : Logger) :
  exists this' rel,
    Logger_get this_ptr logger_name this = Some (this', Some (this_ptr ++ rel))
    /\ rel <> []
    /\ (Z.of_nat (String.length logger_name) < 2 ^ 31 -> rel = segments logger_name)
    /\ (forall q, q `prefix_of` rel -> is_Some (node_at q this'))
    /\ (forall q, is_Some (node_at q this) -> is_Some (node_at q this'))
    /\ (forall q n', node_at q this' = Some n' -> node_at q this = None ->
          q `prefix_of` rel /\ sinks n' = [])
    /\ exists root' p,
         get logger_name this = Some (root', Some p) /\ p <> []
         /\ is_Some (node_at p root').
Proof.
  destruct (Logger_get_spec this_ptr logger_name this)
    as (this' & rel & Hg & Hn & Hgr1 & Hgr2).
  destruct (get_rec_path _ _ _ _ _ _ ltac:(apply Nat.lt_succ_diag_r) Hg)
    as (Hne & Hnew & Hkeys).
  exists this', rel. split; [done|]. split; [done|]. split; [done|].
  split; [|split; [|split]].
  - intros q [q' ->]. rewrite node_at_app in Hn.
    destruct (node_at q this'); [done|]. by destruct Hn.
  - intros q [n Hq]. destruct (Hgr1 q n Hq) as (n' & -> & _). done.
  - intros q n' Hq Hold. split; [|by apply (Hgr2 q)].
    destruct (Hnew q) as [[? Hq']|Hpre]; [by eexists|congruence|done].
  - destruct (Logger_get_spec [] logger_name this) as (root' & p & Hg' & Hn' & _).
    destruct (get_rec_path _ _ _ _ _ _ ltac:(apply Nat.lt_succ_diag_r) Hg')
      as (Hne' & _).
    by exists root', p.
Qed.

(** [logging::get] returns a pointer into the tree under the root. *)
Lemma get_returns (logger_name : string) (root_logger : Logger) :
  exists root' p,
    get logger_name root_logger = Some (root', Some p) /\ is_Some (node_at p root').
Proof.
  destruct (Logger_get_spec [] logger_name root_logger) as (root' & rel & H & Hn & _).
  by exists root', rel.
Qed.

(** C2. For every name and every node to start from, [get] returns a
    pointer, and a second call on the tree that the first has left
    returns the same pointer and leaves the tree as it is: no node is
    created the second time. *)
Theorem Logger_get_idempotent (this_ptr : ptr) (logger_name : string) (this : Logger) :
  exists this' h,
    Logger_get this_ptr logger_name this = Some (this', Some h)
    /\ Logger_get this_ptr logger_name this' = Some (this', Some h).
Proof.
  destruct (Logger_get_spec this_ptr logger_name this) as (this' & rel & H & _).
  exists this', (this_ptr ++ rel). split; [done|].
  unfold Logger_get in *. by apply (get_rec_idempotent _ _ _ this).
Qed.

(** The segments of names that are not well formed. *)
Example segments_malformed :
  segments "" = [""]
  /\ segments "a//b/" = ["a"; ""; "b"; ""]
  /\ segments "/" = [""; ""]
  /\ segments "app/net" = ["app"; "net"].
Proof. repeat split. Qed.

(** Names that are not well formed. *)
Example get_malformed :
  snd <$> get "" (Logger_new None "" true) = Some (Some [""])
  /\ snd <$> get "a//b/" (Logger_new None "" true) = Some (Some ["a"; ""; "b"; ""])
  /\ snd <$> get "/" (Logger_new None "" true) = Some (Some [""; ""]).
Proof. repeat split; vm_compute; reflexivity. Qed.

(** ** Subscription *)

Lemma attach_sink_fields sink this :
  fields (attach_sink sink this)
  = (parent this, name this, propagate this, dom (children this), sinks this ++ [sink]).
Proof. destruct this. unfold fields. simpl. by rewrite dom_fmap_L. Qed.

Lemma node_at_attach_sink sink q this :
  node_at q (attach_sink sink this) = attach_sink sink <$> node_at q this.
Proof.
  revert this. induction q as [|k q IH]; intros this; [done|].
  destruct this as [pa na pr ch sk]. simpl. rewrite lookup_fmap.
  destruct (ch !! k) as [c|]; simpl; [apply IH|done].
Qed.

(** C3. [attach_sink] on a node [X]: every node under [X] at the time of
    the call, [X] itself included and whatever the propagate flags, has
    afterwards the sinks it had with the new reference appended once, and
    its other fields as before; no node is added by the call; and a node
    that a later [get] creates under [X] has no sinks, so it has not
    received the sink. *)
Theorem attach_sink_snapshot (sink : weak_ptr) (X : Logger) :
  (forall q n, node_at q X = Some n ->
     exists n', node_at q (attach_sink sink X) = Some n'
       /\ fields n' = (parent n, name n, propagate n, dom (children n), sinks n ++ [sink]))
  /\ (forall q, node_at q X = None -> node_at q (attach_sink sink X) = None)
  /\ (forall this_ptr logger_name,
       exists X' h,
         Logger_get this_ptr logger_name (attach_sink sink X) = Some (X', Some h)
         /\ forall q n', node_at q X' = Some n' -> node_at q X = None -> sinks n' = []).
Proof.
  split; [|split].
  - intros q n H. exists (attach_sink sink n).
    rewrite node_at_attach_sink, H. split; [done|apply attach_sink_fields].
  - intros q H. by rewrite node_at_attach_sink, H.
  - intros this_ptr logger_name.
    destruct (get_rec_spec (Datatypes.S (String.length logger_name))
                this_ptr logger_name (attach_sink sink X))
      as (X' & rel & Hg & _ & _ & Hnew); [lia|].
    exists X', (this_ptr ++ rel). split; [done|].
    intros q n' Hq HX. apply (Hnew q n' Hq). by rewrite node_at_attach_sink, HX.
Qed.

(** The scenario of the specification: [app] and [app/net] exist when a
    sink subscribes to [app]; [app/net/io] is created afterwards. The
    first two hold the sink, the third does not, and for that reason the
    unsubscription from [app] reaches an erase at [end()]. *)
Example subscribe_scenario :
  let sinks_at p t := sinks <$> (t ≫= node_at p) in
  let t1 := fst <$> get "app/net" (Logger_new None "" true) in
  let t2 := t1 ≫= subscribe_path (Owned 1) "app" in
  let t3 := fst <$> (t2 ≫= get "app/net/io") in
  sinks_at ["app"] t3 = Some [Owned 1]
  /\ sinks_at ["app"; "net"] t3 = Some [Owned 1]
  /\ sinks_at ["app"; "net"; "io"] t3 = Some []
  /\ sinks_at [] t3 = Some []
  /\ sinks_at ["app"; "net"] (t2 ≫= unsubscribe_path (Owned 1) "app") = Some []
  /\ (t3 ≫= unsubscribe_path (Owned 1) "app") = None.
Proof. repeat split; vm_compute; reflexivity. Qed.

(** * Further properties *)

#[local] Set Warnings "-clear-no-such-hyp".

(** ** Level names *)

(** X1. The names of two different levels differ, with and without
    colour, and a coloured name is the plain name between a colour code
    of five characters and the reset sequence. *)
Theorem LogLevel_toStr_distinct (with_color : bool) (l l' : LogLevel) :
  (LogLevel_toStr l with_color = LogLevel_toStr l' with_color -> l = l')
  /\ exists code,
      String.length code = 5%nat
      /\ LogLevel_toStr l true = code +:+ LogLevel_toStr l false +:+ color_reset.
Proof.
  split.
  - destruct with_color, l, l'; intros H; try reflexivity; vm_compute in H; discriminate.
  - destruct l;
      [exists (esc +:+ "[97m") | exists (esc +:+ "[96m") | exists (esc +:+ "[92m")
      |exists (esc +:+ "[93m") | exists (esc +:+ "[91m") | exists (esc +:+ "[31m")];
      split; reflexivity.
Qed.

(** ** Changes of the filter chain *)

Lemma asked_app log fl f :
  asked log (fl ++ [f])
  = if forallb (fun g => accepts g log) fl then fl ++ [f] else asked log fl.
Proof.
  unfold asked. induction fl as [|g fl IH]; simpl; [by destruct (accepts f log)|].
  destruct (accepts g log); simpl; [|done].
  rewrite IH. by destruct (forallb _ fl).
Qed.

(** X2. A filter added by [add_filter] is the last of the chain: [filter]
    asks it after all the others and only when they all accept, and the
    answer is the conjunction of the old answer and the new filter's. *)
Theorem add_filter_last (log : Log) (fl : list Filter) (f : Filter) (w : World) :
  Filterer_filter (add_filter (Some f) (mkFilterer (Some <$> fl))) log w
  = (forallb (fun g => accepts g log) fl && accepts f log,
     w ++ (call_of log <$>
             (if forallb (fun g => accepts g log) fl then fl ++ [f] else asked log fl)),
     Returned).
Proof.
  unfold Filterer_filter, add_filter. simpl.
  change [Some f] with (Some <$> [f]). rewrite <- fmap_app, filter_loop_chain.
  rewrite forallb_app, asked_app. simpl. by rewrite andb_true_r.
Qed.

(** X3. A null pointer given to [add_filter] is stored like a filter:
    [filter] dereferences it, which is undefined, exactly when all the
    filters before it accept; when one rejects, the null entry is never
    reached. *)
Theorem add_filter_null (log : Log) (fl : list Filter) (w : World) :
  Filterer_filter (add_filter None (mkFilterer (Some <$> fl))) log w
  = if forallb (fun g => accepts g log) fl
    then (false, w ++ (call_of log <$> fl), Undefined)
    else (false, w ++ (call_of log <$> asked log fl), Returned).
Proof.
  unfold Filterer_filter, add_filter. simpl. revert w.
  induction fl as [|g fl IH]; intros w; simpl.
  - by rewrite app_nil_r.
  - unfold asked. simpl. destruct (accepts g log); simpl; [|done].
    rewrite IH. unfold asked. destruct (forallb _ fl); by rewrite <- app_assoc.
Qed.

Lemma shared_ptr_eq_refl (flt : shared_ptr Filter) : shared_ptr_eq flt flt = true.
Proof. destruct flt; simpl; [by apply bool_decide_eq_true_2|done]. Qed.

(** X4. [remove_filter] takes exactly one slot out of the chain, however
    often the filter occurs: the entries to keep come first, in their
    order, and one entry less than there were matches follows them. It is
    undefined exactly when no entry matches. *)
Theorem remove_filter_one_slot (flt : shared_ptr Filter) (this : Filterer) :
  (remove_filter flt this = None <-> other_filters flt (filters this) = filters this)
  /\ (forall this', remove_filter flt this = Some this' ->
        exists rest,
          filters this' = other_filters flt (filters this) ++ rest
          /\ (length (filters this') + 1 = length (filters this))%nat).
Proof.
  unfold remove_filter, other_filters.
  pose proof (erase_remove_spec (fun f => shared_ptr_eq f flt) None (filters this)) as Her.
  destruct (remove_if _ _ (filters this)) as [v r].
  destruct (vector_erase v r) as [fs'|]; simpl.
  - destruct Her as (rest & -> & Hl). split.
    + split; [done|]. intros H. rewrite H in Hl. lia.
    + intros this' [= <-]. exists rest. split; [done|]. simpl.
      rewrite length_app. lia.
  - split; [done|]. by intros this' [=].
Qed.

Lemma remove_filter_defined flt this :
  other_filters flt (filters this) <> filters this ->
  exists this' rest,
    remove_filter flt this = Some this'
    /\ filters this' = other_filters flt (filters this) ++ rest
    /\ (length (filters this') + 1 = length (filters this))%nat.
Proof.
  intros Hne. unfold remove_filter, other_filters in *.
  pose proof (erase_remove_spec (fun f => shared_ptr_eq f flt) None (filters this)) as Her.
  destruct (remove_if _ _ (filters this)) as [v r].
  destruct (vector_erase v r) as [fs'|]; simpl; [|done].
  destruct Her as (rest & -> & Hl). eexists _, rest. split; [done|]. split; [done|].
  simpl. rewrite length_app. lia.
Qed.

(** X5. A filter that is added to a chain without an entry of it and
    removed again leaves the chain as it was. *)
Theorem remove_filter_add_filter (flt : shared_ptr Filter) (this : Filterer) :
  other_filters flt (filters this) = filters this ->
  remove_filter flt (add_filter flt this) = Some this.
Proof.
  intros Hfresh. destruct this as [fs]. simpl in *.
  assert (other_filters flt (fs ++ [flt]) = fs) as Hkeep.
  { unfold other_filters in *. rewrite filter_app, Hfresh.
    rewrite filter_cons_False by (rewrite shared_ptr_eq_refl; done).
    by rewrite app_nil_r. }
  destruct (remove_filter_defined flt (add_filter flt (mkFilterer fs)))
    as (this' & rest & -> & Hfs & Hlen).
  { simpl. rewrite Hkeep. intros H. apply (f_equal length) in H.
    rewrite length_app in H. simpl in H. lia. }
  destruct this' as [fs']. simpl in *. rewrite Hkeep in Hfs. subst fs'.
  rewrite !length_app in Hlen. simpl in Hlen.
  destruct rest; [by rewrite app_nil_r|simpl in Hlen; lia].
Qed.

Lemma remove_filter_add_filter_witness :
  remove_filter (Some reject_all) (add_filter (Some reject_all) (mkFilterer [Some accept_all]))
  = Some (mkFilterer [Some accept_all]).
Proof.
  apply (remove_filter_add_filter (Some reject_all) (mkFilterer [Some accept_all])).
  vm_compute. reflexivity.
Defined.

(** ** Unsubscription in general *)

Lemma equals_refl sink : equals sink sink = true.
Proof. by apply equals_iff. Qed.

Lemma erase_defined_iff sink sk :
  is_Some (let '(v, new_end) := remove_if (fun s => equals sink s) EmptyPtr sk in
           vector_erase v new_end)
  <-> others sink sk <> sk.
Proof.
  pose proof (erase_remove_spec (fun s => equals sink s) EmptyPtr sk) as Her.
  unfold others. destruct (remove_if _ _ sk) as [v r].
  destruct (vector_erase v r) as [sk'|].
  - destruct Her as (rest & -> & Hl). split; [|done].
    intros _ H. rewrite H in Hl. lia.
  - split; [by intros [? ?]|]. intros H. by destruct H.
Qed.

(** X6. [deattach_sink] is defined exactly when every node under the
    node it is called on, that node included, holds at least one entry
    of the sink: one node without it anywhere below makes the whole call
    undefined. *)
Theorem deattach_sink_defined (sink : weak_ptr) (this : Logger) :
  is_Some (deattach_sink sink this)
  <-> forall q n, node_at q this = Some n -> others sink (sinks n) <> sinks n.
Proof.
  induction this as [this IH] using Logger_tree_ind.
  destruct this as [pa na pr ch sk]. simpl in *.
  pose proof (erase_defined_iff sink sk) as Her.
  destruct (remove_if _ _ sk) as [v r].
  destruct (vector_erase v r) as [sk'|]; last first.
  { split; [by intros [? ?]|]. intros H.
    by destruct (proj2 Her (H [] _ eq_refl)) as [? ?]. }
  assert (others sink sk <> sk) as Hsk by (by apply (proj1 Her)).
  case_bool_decide as Hch.
  - split; [|done]. intros _ [|k q] n Hq; simpl in Hq; [by simplify_eq|].
    destruct (ch !! k) as [c|] eqn:Hk; [|done].
    refine (proj1 (IH k c Hk) _ q n Hq).
    apply (Hch k (deattach_sink sink c)). by rewrite lookup_fmap, Hk.
  - split; [by intros [? ?]|]. intros H. destruct Hch.
    intros k o. rewrite lookup_fmap. destruct (ch !! k) as [c|] eqn:Hk; [|done].
    simpl. intros [= <-]. apply (proj2 (IH k c Hk)). intros q n Hq.
    apply (H (k :: q)). simpl. by rewrite Hk.
Qed.

Lemma find_if_snoc {A} (pred : A -> bool) (v : list A) (x : A) :
  Forall (fun y => pred y = false) v -> pred x = true ->
  find_if pred (v ++ [x]) = length v.
Proof.
  intros Hv Hx. induction Hv as [|y v Hy _ IH]; simpl; [by rewrite Hx|].
  by rewrite Hy, IH.
Qed.

(** The idiom on a vector whose only match is its last element. *)
Lemma erase_remove_snoc {A} (pred : A -> bool) (moved : A) (v : list A) (x : A) :
  Forall (fun y => pred y = false) v -> pred x = true ->
  (let '(v', new_end) := remove_if pred moved (v ++ [x]) in vector_erase v' new_end)
  = Some v.
Proof.
  intros Hv Hx. unfold remove_if. rewrite (find_if_snoc _ _ _ Hv Hx), length_app.
  simpl. rewrite decide_False by lia.
  replace (length v + 1 - S (length v))%nat with 0%nat by lia. simpl.
  unfold vector_erase. rewrite length_app. simpl. rewrite decide_True by lia.
  rewrite delete_take_drop, take_app_length, drop_ge by (rewrite length_app; simpl; lia).
  by rewrite app_nil_r.
Qed.

(** X7. Subscribing a sink to a node under which no node holds it, and
    unsubscribing it again, gives back the tree as it was. *)
Theorem deattach_sink_attach_sink (sink : weak_ptr) (this : Logger) :
  (forall q n, node_at q this = Some n -> others sink (sinks n) = sinks n) ->
  deattach_sink sink (attach_sink sink this) = Some this.
Proof.
  induction this as [this IH] using Logger_tree_ind. intros Hall.
  pose proof (Hall [] this eq_refl) as Hsk.
  destruct this as [pa na pr ch sk]. simpl in *.
  assert (Forall (fun y => equals sink y = false) sk) as Hv.
  { unfold others in Hsk. rewrite <- Hsk. apply Forall_forall.
    intros x Hx. by apply list_elem_of_filter in Hx as [? _]. }
  pose proof (erase_remove_snoc (fun s => equals sink s) EmptyPtr sk sink Hv
                (equals_refl sink)) as He.
  destruct (remove_if _ _ (sk ++ [sink])) as [v r]. rewrite He.
  assert (forall k c, ch !! k = Some c ->
            deattach_sink sink (attach_sink sink c) = Some c) as IH'.
  { intros k c Hk. apply (IH k c Hk). intros q n Hq. apply (Hall (k :: q)).
    simpl. by rewrite Hk. }
  rewrite bool_decide_eq_true_2; last first.
  { intros k o. rewrite !lookup_fmap. destruct (ch !! k) as [c|] eqn:Hk; [|done].
    simpl. rewrite (IH' k c Hk). by intros [= <-]. }
  do 2 f_equal. apply map_eq. intros k.
  rewrite lookup_omap, !lookup_fmap. destruct (ch !! k) as [c|] eqn:Hk; [|done].
  simpl. by rewrite (IH' k c Hk).
Qed.

Lemma nodes_of_root0 q n : node_at q root0 = Some n -> n = root0 \/ n = app0.
Proof.
  destruct q as [|k q]; simpl; [intros [= <-]; by left|].
  destruct (decide (k = "app")) as [->|Hk].
  - rewrite lookup_singleton_eq. destruct q as [|k' q]; simpl; [intros [= <-]; by right|].
    by rewrite lookup_empty.
  - by rewrite lookup_singleton_ne.
Qed.

Lemma deattach_sink_attach_sink_witness :
  deattach_sink (Owned 9) (attach_sink (Owned 9) root0) = Some root0.
Proof.
  apply (deattach_sink_attach_sink (Owned 9) root0).
  intros q n Hq. destruct (nodes_of_root0 q n Hq) as [->| ->]; vm_compute; reflexivity.
Defined.

(** ** Broadcast: exceptions, duplicates, dead entries *)

Section BroadcastMore.

Context {S : Type}.
Variable heap : Heap S.
Variable handle : S -> Log -> World -> World * completion.

(** The world after [handle] has run for the live entries of [l]. *)
Local Abbreviation served log l w :=
  (foldl (fun w sink => (handle sink log w).1) w (omap (lock heap) l)).

(** The loop over a vector whose front part is served without incident
    goes on with the rest as if it started there. *)
Lemma publish_loop_app log l1 l2 w :
  (forall p sink w', p ∈ l1 -> lock heap p = Some sink ->
                     (handle sink log w').2 = Returned) ->
  publish_loop heap handle log (l1 ++ l2) w
  = let '(kept, w', c) := publish_loop heap handle log l2 (served log l1 w) in
    (filter (live heap) l1 ++ kept, w', c).
Proof.
  revert w. induction l1 as [|p l1 IH]; intros w Hret; simpl.
  - by destruct (publish_loop heap handle log l2 w) as [[? ?] ?].
  - destruct (lock heap p) as [sink|] eqn:Hp.
    + assert (live heap p) as Hl by (unfold live; by rewrite Hp).
      pose proof (Hret p sink w (list_elem_of_here _ _) Hp) as Hr.
      destruct (handle sink log w) as [w1 c1] eqn:Hh. simpl in Hr. subst c1.
      rewrite IH by (intros q s' w' Hq; apply Hret; by constructor).
      rewrite filter_cons_True by done. simpl. rewrite Hh. simpl.
      by destruct (publish_loop heap handle log l2 _) as [[? ?] ?].
    + assert (~ live heap p) as Hl by (unfold live; rewrite Hp; by intros [? ?]).
      rewrite IH by (intros q s' w' Hq; apply Hret; by constructor).
      by rewrite filter_cons_False by done.
Qed.

(** X8. A sink whose [handle] does not return ends the broadcast: the
    entries before it have been pruned and served, the entry itself and
    all entries behind it stay in the vector as they are, dead ones
    included, and no sink behind it is called. *)
Theorem publish_log_stops (log : Log) (this : Logger) (w : World)
    (pre post : list weak_ptr) (p : weak_ptr) (sink : S) :
  sinks this = pre ++ p :: post ->
  (forall q s w', q ∈ pre -> lock heap q = Some s -> (handle s log w').2 = Returned) ->
  lock heap p = Some sink ->
  (handle sink log (served log pre w)).2 <> Returned ->
  publish_log heap handle log this w
  = (set_sinks this (filter (live heap) pre ++ p :: post),
     (handle sink log (served log pre w)).1,
     (handle sink log (served log pre w)).2).
Proof.
  intros Hs Hret Hp Hthrow. unfold publish_log.
  rewrite Hs, publish_loop_app by done. simpl. rewrite Hp.
  destruct (handle sink log _) as [w1 c1]. simpl in *. by destruct c1.
Qed.

(** X9. No entry is looked at twice and none is merged: a node that
    holds the same live sink in two entries, as after two subscriptions,
    calls its [handle] twice for one record, and keeps both entries. *)
Theorem publish_log_duplicate (log : Log) (this : Logger) (w : World)
    (p : weak_ptr) (sink : S) :
  (forall q s w', lock heap q = Some s -> (handle s log w').2 = Returned) ->
  lock heap p = Some sink ->
  publish_log heap handle log (attach_sink p (attach_sink p this)) w
  = (set_sinks (attach_sink p (attach_sink p this))
       (filter (live heap) (sinks this) ++ [p; p]),
     (handle sink log (handle sink log (served log (sinks this) w)).1).1,
     Returned).
Proof.
  intros Hret Hp. unfold publish_log.
  assert (sinks (attach_sink p (attach_sink p this)) = sinks this ++ [p; p]) as ->.
  { destruct this. simpl. by rewrite <- app_assoc. }
  rewrite publish_loop_app by (intros; by eapply Hret). simpl. rewrite Hp.
  pose proof (Hret p sink (served log (sinks this) w) Hp) as H1.
  destruct (handle sink log (served log (sinks this) w)) as [w1 c1]. simpl in *. subst c1.
  pose proof (Hret p sink w1 Hp) as H2.
  destruct (handle sink log w1) as [w2 c2]. simpl in *. by subst c2.
Qed.

(** X10. An entry that does not resolve, appended to the sinks of a
    node, changes nothing of a broadcast: the same calls are made and the
    call ends the same way; when the loop returns the entry has been
    pruned, and when a sink ends the loop before, the entry is still
    there. This is the lot of a sink that is destroyed, and of one that
    subscribes without being owned by a [shared_ptr]. *)
Theorem publish_loop_dead_entry (log : Log) (l : list weak_ptr) (p : weak_ptr)
    (w : World) :
  lock heap p = None ->
  exists kept w' c,
    publish_loop heap handle log l w = (kept, w', c)
    /\ publish_loop heap handle log (l ++ [p]) w
       = (match c with Returned => kept | _ => kept ++ [p] end, w', c).
Proof.
  intros Hp. revert w. induction l as [|q l IH]; intros w; simpl.
  - rewrite Hp. by exists [], w, Returned.
  - destruct (lock heap q) as [sink|]; [|apply IH].
    destruct (handle sink log w) as [w1 c1]. destruct c1.
    + destruct (IH w1) as (kept & w' & c & -> & ->).
      exists (q :: kept), w', c. split; [done|]. by destruct c.
    + by exists (q :: l), w1, Thrown.
    + by exists (q :: l), w1, Undefined.
Qed.

(** X11. After a broadcast that returned, a node holds live entries
    only: the next broadcast prunes nothing, keeps the sinks as they are
    and serves every entry again. *)
Theorem publish_log_again (log log' : Log) (this : Logger) (w : World) :
  (forall q s l w', lock heap q = Some s -> (handle s l w').2 = Returned) ->
  exists this1 w1,
    publish_log heap handle log this w = (this1, w1, Returned)
    /\ Forall (live heap) (sinks this1)
    /\ publish_log heap handle log' this1 w1
       = (this1, served log' (sinks this1) w1, Returned).
Proof.
  intros Hret. unfold publish_log.
  rewrite publish_loop_returns by (intros; by eapply Hret).
  eexists _, _. split; [done|]. simpl.
  assert (Forall (live heap) (filter (live heap) (sinks this))) as Hall.
  { apply Forall_forall. intros x Hx. by apply list_elem_of_filter in Hx as [? _]. }
  split; [done|].
  rewrite publish_loop_returns by (intros; by eapply Hret).
  assert (forall l, Forall (live heap) l -> filter (live heap) l = l) as Hid.
  { induction 1 as [|x l Hx _ IHl]; [done|]. rewrite filter_cons_True by done.
    by rewrite IHl. }
  rewrite (Hid _ Hall). by destruct this.
Qed.

End BroadcastMore.

Lemma heap0_returns q s l w' :
  lock heap0 q = Some s -> (Sink_handle false s l w').2 = Returned.
Proof.
  destruct q as [|ctrl]; [done|]. unfold heap0, Heap. simpl. intros H.
  change (({[1%nat := zmq0; 3%nat := print0]} : gmap nat Sink) !! ctrl = Some s) in H.
  rewrite lookup_insert_Some, lookup_singleton_Some in H.
  destruct H as [[<- <-]|[_ [<- <-]]]; reflexivity.
Qed.

Lemma publish_log_stops_witness :
  publish_log heap1 (Sink_handle false) rec_unnamed node1 []
  = (set_sinks node1 (filter (live heap1) [Owned 1; Owned 2] ++ Owned 4 :: [Owned 2; Owned 1]),
     (Sink_handle false file0 rec_unnamed
        (foldl (fun w sink => (Sink_handle false sink rec_unnamed w).1) []
           (omap (lock heap1) [Owned 1; Owned 2]))).1,
     (Sink_handle false file0 rec_unnamed
        (foldl (fun w sink => (Sink_handle false sink rec_unnamed w).1) []
           (omap (lock heap1) [Owned 1; Owned 2]))).2).
Proof.
  apply (publish_log_stops heap1 (Sink_handle false) rec_unnamed node1 []
           [Owned 1; Owned 2] [Owned 2; Owned 1] (Owned 4) file0).
  - reflexivity.
  - intros q s w' Hq Hl. rewrite !elem_of_cons, elem_of_nil in Hq.
    destruct Hq as [->|[->|[]]]; vm_compute in Hl; simplify_eq; reflexivity.
  - reflexivity.
  - vm_compute. discriminate.
Defined.

Lemma publish_log_duplicate_witness :
  publish_log heap0 (Sink_handle false) rec0
    (attach_sink (Owned 1) (attach_sink (Owned 1) app0)) []
  = (set_sinks (attach_sink (Owned 1) (attach_sink (Owned 1) app0))
       (filter (live heap0) (sinks app0) ++ [Owned 1; Owned 1]),
     (Sink_handle false zmq0 rec0
        (Sink_handle false zmq0 rec0
           (foldl (fun w sink => (Sink_handle false sink rec0 w).1) []
              (omap (lock heap0) (sinks app0)))).1).1,
     Returned).
Proof.
  apply (publish_log_duplicate heap0 (Sink_handle false) rec0 app0 [] (Owned 1) zmq0).
  - intros q s w'. apply heap0_returns.
  - reflexivity.
Defined.

Lemma publish_loop_dead_entry_witness :
  exists kept w' c,
    publish_loop heap0 (Sink_handle false) rec0 (sinks app0) [] = (kept, w', c)
    /\ publish_loop heap0 (Sink_handle false) rec0 (sinks app0 ++ [Owned 2]) []
       = (match c with Returned => kept | _ => kept ++ [Owned 2] end, w', c).
Proof.
  apply (publish_loop_dead_entry heap0 (Sink_handle false) rec0 (sinks app0) (Owned 2) []).
  reflexivity.
Defined.

Lemma publish_log_again_witness :
  exists this1 w1,
    publish_log heap0 (Sink_handle false) rec0 app0 [] = (this1, w1, Returned)
    /\ Forall (live heap0) (sinks this1)
    /\ publish_log heap0 (Sink_handle false) rec_unnamed this1 w1
       = (this1,
          foldl (fun w sink => (Sink_handle false sink rec_unnamed w).1) w1
            (omap (lock heap0) (sinks this1)),
          Returned).
Proof.
  apply (publish_log_again heap0 (Sink_handle false) rec0 rec_unnamed app0 []).
  intros q s l w'. apply heap0_returns.
Defined.

(** ** The source in the output of a sink *)

Lemma string_take_all n s : (String.length s <= n)%nat -> string_take n s = s.
Proof.
  revert s. induction n as [|n IH]; intros [|a s]; simpl; intros H; try done; [lia|].
  f_equal. apply IH. lia.
Qed.

(** [substr(1)] throws on the empty source and on no other; of a source
    shorter than 2^64 it gives all but the first character. *)
Lemma source_tail_spec log :
  match source log with
  | EmptyString => source_tail log = None
  | String _ s =>
      exists t, source_tail log = Some t
        /\ (Z.of_nat (String.length s) < 2 ^ 64 -> t = s)
  end.
Proof.
  unfold source_tail, string_substr. destruct (source log) as [|a s]; [done|].
  replace (Z.of_nat (String.length (String a s)) <? 1) with false
    by (symmetry; apply Z.ltb_ge; simpl String.length; lia).
  simpl string_drop. eexists. split; [done|]. intros H. apply string_take_all.
  unfold npos. simpl String.length. lia.
Qed.

(** X12. A record whose source is empty makes [FileSink::handle] leave
    by the exception of [substr(1)], and [PrintSink::handle] too once its
    chain has accepted the record; with any other source both return.
    A [PrintSink] whose chain rejects returns whatever the source. *)
Theorem handle_throws_iff_no_source (d : bool) (log : Log) (w : World)
    (F : Filterer) (fl : list Filter) (file_path : string) (with_color : bool) :
  ((Sink_handle d (mkSink F (FileSink file_path)) log w).2 = Thrown
     <-> source log = EmptyString)
  /\ ((Sink_handle d (mkSink F (FileSink file_path)) log w).2 = Returned
     <-> source log <> EmptyString)
  /\ ((Sink_handle d (mkSink (mkFilterer (Some <$> fl)) (PrintSink with_color)) log w).2
      = Thrown
     <-> forallb (fun f => accepts f log) fl = true /\ source log = EmptyString)
  /\ ((Sink_handle d (mkSink (mkFilterer (Some <$> fl)) (PrintSink with_color)) log w).2
      = Returned
     <-> forallb (fun f => accepts f log) fl = false \/ source log <> EmptyString).
Proof.
  unfold Sink_handle, FileSink_handle, PrintSink_handle, Filterer_filter. simpl.
  rewrite filter_loop_chain. pose proof (source_tail_spec log) as Hs.
  destruct (source log) as [|a s]; [|destruct Hs as (t & Hs & _)]; rewrite Hs;
    destruct (forallb _ fl); simpl; naive_solver.
Qed.

(** ** Path resolution: what it keeps *)

(** X13. [get] changes no node that exists: each keeps its parent
    pointer, name, propagate flag and sinks, and loses no child. *)
Theorem Logger_get_keeps (this_ptr : ptr) (logger_name : string) (this : Logger) :
  exists this' h,
    Logger_get this_ptr logger_name this = Some (this', Some h)
    /\ forall q n, node_at q this = Some n ->
         exists n', node_at q this' = Some n'
           /\ parent n' = parent n /\ name n' = name n
           /\ propagate n' = propagate n /\ sinks n' = sinks n
           /\ dom (children n) ⊆ dom (children n').
Proof.
  destruct (Logger_get_spec this_ptr logger_name this) as (this' & rel & H & _ & Hk & _).
  exists this', (this_ptr ++ rel). split; [done|]. intros q n Hq.
  destruct (Hk q n Hq) as (n' & Hn' & Hkeeps). by exists n'.
Qed.

(** The pointer of a call that returns leads on from [this_ptr], and a
    call for a name whose nodes all exist leaves the tree alone. *)
Lemma get_rec_existing fuel this_ptr logger_name this this' rel :
  (String.length logger_name < fuel)%nat ->
  get_rec fuel this_ptr logger_name this = Some (this', Some (this_ptr ++ rel)) ->
  is_Some (node_at rel this) ->
  this' = this.
Proof.
  revert this_ptr logger_name this this' rel.
  induction fuel as [|fuel IH]; intros this_ptr logger_name this this' rel Hlen; [lia|].
  rewrite get_rec_S. cbv zeta. rewrite string_substr_0. cbn [mbind option_bind].
  set (head := string_take _ logger_name).
  assert (is_Some (children (ensure_child this_ptr head this) !! head)) as [child Hc].
  { rewrite ensure_child_lookup. destruct (children this !! head); [done|].
    by rewrite decide_True. }
  rewrite Hc. case_decide as Hd.
  - intros [= <- Hrel%app_inv_head] [n Hn]. subst rel. simpl in Hn.
    destruct (children this !! head) as [c|] eqn:Hk; [|done].
    by apply (ensure_child_present _ _ _ c).
  - destruct (string_erase logger_name 0 _) as [tail|] eqn:He; [|done].
    cbn [mbind option_bind].
    pose proof (tail_shorter logger_name tail Hd He) as Ht.
    destruct (get_rec_spec fuel (this_ptr ++ [head]) tail child)
      as (child' & rel' & Hg & _); [lia|].
    rewrite Hg. cbn [mbind option_bind].
    rewrite <- app_assoc. intros [= <- Hrel%app_inv_head] [n Hn]. subst rel.
    simpl in Hn. destruct (children this !! head) as [c|] eqn:Hk; [|done].
    rewrite (ensure_child_present _ _ _ c Hk) in *.
    rewrite Hk in Hc. injection Hc as <-.
    assert (child' = c) as ->.
    { apply (IH (this_ptr ++ [head]) tail c child' rel'); [lia|done|by eexists]. }
    rewrite insert_id by done. by destruct this.
Qed.

(** X14. Resolving the name of a logger that exists is a pure lookup: no
    node is created and the tree is the same afterwards. *)
Theorem Logger_get_existing (this_ptr : ptr) (logger_name : string)
    (this this' : Logger) (rel : ptr) :
  Logger_get this_ptr logger_name this = Some (this', Some (this_ptr ++ rel)) ->
  is_Some (node_at rel this) ->
  this' = this.
Proof. apply get_rec_existing. lia. Qed.

Lemma Logger_get_existing_witness :
  Logger_get [] "app" root0 = Some (root0, Some ([] ++ ["app"]))
  /\ is_Some (node_at ["app"] root0)
  /\ root0 = root0.
Proof.
  assert (Logger_get [] "app" root0 = Some (root0, Some ([] ++ ["app"]))) as H
    by (vm_compute; reflexivity).
  assert (is_Some (node_at ["app"] root0)) as Hn by (vm_compute; eexists; reflexivity).
  split; [done|]. split; [done|].
  exact (Logger_get_existing [] "app" root0 root0 ["app"] H Hn).
Defined.

(** ** Path resolution: names *)

Lemma string_app_assoc (a b c : string) : (a +:+ b) +:+ c = a +:+ (b +:+ c).
Proof.
  induction a as [|x a IH]; [done|].
  change (String x ((a +:+ b) +:+ c) = String x (a +:+ (b +:+ c))). by rewrite IH.
Qed.

(** The name is its part before the first separator, the separator and
    the part behind it. *)
Lemma find_from_split c s j i :
  find_from c s j = Some i ->
  exists i0, i = (j + i0)%nat /\ (i0 < String.length s)%nat
    /\ string_take i0 s +:+ String c (string_drop (Datatypes.S i0) s) = s.
Proof.
  revert j. induction s as [|a s IH]; intros j; simpl; [done|].
  destruct (Ascii.eqb a c) eqn:Ha.
  - intros [= <-]. apply Ascii.eqb_eq in Ha as ->. exists 0%nat. simpl.
    repeat split; lia.
  - intros H. destruct (IH _ H) as (i0 & -> & Hlt & Hs).
    exists (Datatypes.S i0). split; [lia|]. split; [simpl; lia|].
    change (String a (string_take i0 s +:+ String c (string_drop (Datatypes.S i0) s))
            = String a s).
    by rewrite Hs.
Qed.

(** For a name shorter than 2^31 the conversions of [get] are exact:
    without separator the head is the whole name, with one the head and
    the tail are the parts around the first separator. *)
Lemma get_split logger_name :
  Z.of_nat (String.length logger_name) < 2 ^ 31 ->
  let delim_index := int_of (string_find logger_name slash) in
  (size_t_of delim_index = npos ->
     string_substr logger_name 0 (size_t_of delim_index) = Some logger_name)
  /\ (size_t_of delim_index <> npos ->
       exists head tail,
         string_substr logger_name 0 (size_t_of delim_index) = Some head
         /\ string_erase logger_name 0 (size_t_of (int_of (delim_index + 1))) = Some tail
         /\ head +:+ "/" +:+ tail = logger_name).
Proof.
  intros Hlen. cbv zeta. rewrite string_substr_0, string_erase_0.
  unfold string_find. destruct (find_from slash logger_name 0) as [i|] eqn:Hf.
  - destruct (find_from_split _ _ _ _ Hf) as (i0 & -> & Hlt & Hs). simpl in *.
    assert (int_of (Z.of_nat i0) = Z.of_nat i0) as Hi.
    { unfold int_of. change (2 ^ 32) with 4294967296 in *.
      change (2 ^ 31) with 2147483648 in *. rewrite Z.mod_small; lia. }
    assert (int_of (Z.of_nat i0 + 1) = Z.of_nat i0 + 1) as Hi1.
    { unfold int_of. change (2 ^ 32) with 4294967296 in *.
      change (2 ^ 31) with 2147483648 in *. rewrite Z.mod_small; lia. }
    assert (forall z, 0 <= z < 2 ^ 31 -> size_t_of z = z) as Hsz.
    { intros z Hz. unfold size_t_of. change (2 ^ 31) with 2147483648 in *.
      change (2 ^ 64) with 18446744073709551616. rewrite Z.mod_small; lia. }
    rewrite Hi, Hi1, !Hsz by lia. split.
    + unfold npos. change (2 ^ 64) with 18446744073709551616.
      change (2 ^ 31) with 2147483648 in *. lia.
    + intros _. eexists _, _. split; [done|]. split; [done|].
      replace (Z.to_nat (Z.of_nat i0 `min` Z.of_nat (String.length logger_name)))
        with i0 by lia.
      replace (Z.to_nat ((Z.of_nat i0 + 1) `min` Z.of_nat (String.length logger_name)))
        with (Datatypes.S i0) by lia.
      exact Hs.
  - split; [|done]. intros _. f_equal. apply string_take_all.
    change (size_t_of (int_of npos)) with npos. unfold npos.
    change (2 ^ 64) with 18446744073709551616.
    change (2 ^ 31) with 2147483648 in *. lia.
Qed.

Lemma named_child this_ptr t k c :
  named this_ptr t -> children t !! k = Some c -> named (this_ptr ++ [k]) c.
Proof.
  intros H Hk q n k' c' Hq Hk'. rewrite <- app_assoc. apply (H (k :: q) n k' c'); [|done].
  simpl. by rewrite Hk.
Qed.

Lemma named_intro this_ptr t :
  (forall k c, children t !! k = Some c ->
     name c = name t +:+ "/" +:+ k /\ parent c = Some this_ptr
     /\ named (this_ptr ++ [k]) c) ->
  named this_ptr t.
Proof.
  intros H [|k0 q] n k c Hq Hk; simpl in Hq.
  - simplify_eq. rewrite app_nil_r. destruct (H k c Hk) as (? & ? & _). done.
  - destruct (children t !! k0) as [c0|] eqn:Hk0; [|done].
    destruct (H k0 c0 Hk0) as (_ & _ & Hn).
    replace (this_ptr ++ k0 :: q) with ((this_ptr ++ [k0]) ++ q) by by rewrite <- app_assoc.
    by apply (Hn q n k c).
Qed.

Lemma named_top this_ptr t k c :
  named this_ptr t -> children t !! k = Some c ->
  name c = name t +:+ "/" +:+ k /\ parent c = Some this_ptr.
Proof.
  intros H Hk. destruct (H [] t k c eq_refl Hk) as [? ?]. by rewrite app_nil_r in *.
Qed.

Lemma named_ensure_child this_ptr k t :
  named this_ptr t -> named this_ptr (ensure_child this_ptr k t).
Proof.
  intros H. apply named_intro. intros k' c. rewrite ensure_child_lookup.
  replace (name (ensure_child this_ptr k t)) with (name t)
    by (unfold ensure_child; by destruct (children t !! k)).
  destruct (children t !! k') as [c'|] eqn:Hk'.
  - intros [= <-]. destruct (named_top _ _ _ _ H Hk') as [? ?].
    split; [done|]. split; [done|]. by eapply named_child.
  - case_decide as Hkk; [|done]. subst k'. intros [= <-]. simpl.
    split; [done|]. split; [done|]. intros q n k' c' Hq.
    apply node_at_new in Hq as [_ ->]. simpl. by rewrite lookup_empty.
Qed.

Lemma named_set_child this_ptr t k c c' :
  named this_ptr t -> children t !! k = Some c ->
  named (this_ptr ++ [k]) c' -> name c' = name c -> parent c' = parent c ->
  named this_ptr (set_children t (<[k := c']> (children t))).
Proof.
  intros H Hk Hc' Hname Hparent. apply named_intro. intros k' c0. simpl.
  destruct (decide (k = k')) as [<-|Hne].
  - rewrite lookup_insert_eq. intros [= <-].
    destruct (named_top _ _ _ _ H Hk) as [? ?].
    split; [congruence|]. split; [congruence|done].
  - rewrite lookup_insert_ne by done. intros Hk'.
    destruct (named_top _ _ _ _ H Hk') as [? ?].
    split; [done|]. split; [done|]. by eapply named_child.
Qed.

(** In a tree that is named, [get_rec] keeps the naming, and the node it
    returns for a name shorter than 2^31 is named after the node it
    started from and the whole name. *)
Lemma get_rec_named fuel this_ptr logger_name this :
  (String.length logger_name < fuel)%nat ->
  named this_ptr this ->
  exists this' rel n,
    get_rec fuel this_ptr logger_name this = Some (this', Some (this_ptr ++ rel))
    /\ node_at rel this' = Some n
    /\ named this_ptr this'
    /\ keeps this this'
    /\ (Z.of_nat (String.length logger_name) < 2 ^ 31 ->
        name n = name this +:+ "/" +:+ logger_name).
Proof.
  revert this_ptr logger_name this.
  induction fuel as [|fuel IH]; intros this_ptr logger_name this Hlen Hnamed; [lia|].
  rewrite get_rec_S. cbv zeta.
  pose proof (get_split logger_name) as Hsplit. cbv zeta in Hsplit.
  destruct (string_substr logger_name 0 _) as [head|] eqn:Hhead;
    [|by rewrite string_substr_0 in Hhead].
  cbn [mbind option_bind].
  pose proof (named_ensure_child this_ptr head this Hnamed) as Hne.
  pose proof (ensure_child_keeps this_ptr head this) as Hke.
  assert (is_Some (children (ensure_child this_ptr head this) !! head)) as [child Hc].
  { rewrite ensure_child_lookup. destruct (children this !! head); [done|].
    by rewrite decide_True. }
  destruct (named_top _ _ _ _ Hne Hc) as [Hcn Hcp].
  assert (name (ensure_child this_ptr head this) = name this) as Hnm
    by (by destruct Hke as (_ & ? & _)).
  rewrite Hc. case_decide as Hd.
  - eexists _, [head], child. split; [done|]. split; [by simpl; rewrite Hc|].
    split; [done|]. split; [done|]. intros Hshort.
    destruct (Hsplit Hshort) as [Hwhole _]. specialize (Hwhole Hd).
    rewrite Hcn, Hnm. congruence.
  - destruct (string_erase logger_name 0 _) as [tail|] eqn:He;
      [|by rewrite string_erase_0 in He].
    cbn [mbind option_bind].
    pose proof (tail_shorter logger_name tail Hd He) as Ht.
    destruct (IH (this_ptr ++ [head]) tail child) as
      (child' & rel & n & -> & Hn & Hnamed' & Hkeeps' & Hname'); [lia| |].
    { by eapply named_child. }
    cbn [mbind option_bind]. eexists _, (head :: rel), n.
    split; [by rewrite <- app_assoc|].
    split; [by simpl; rewrite lookup_insert_eq|].
    destruct Hkeeps' as (Hp' & Hn' & _).
    split; [by eapply named_set_child|]. split.
    + eapply keeps_trans; [done|]. repeat split; try done. simpl.
      rewrite dom_insert_L. set_solver.
    + intros Hshort. destruct (Hsplit Hshort) as [_ Hparts].
      destruct (Hparts Hd) as (head' & tail' & Hh' & Ht' & Hjoin).
      assert (head' = head) as -> by congruence.
      assert (tail' = tail) as -> by congruence.
      rewrite Hname' by lia. rewrite Hcn, Hnm, <- Hjoin.
      by rewrite !string_app_assoc.
Qed.

(** X15. The naming of the tree is an invariant of [get]: when every
    child is named after its parent and its key and points back to its
    parent, the same holds after the call, for the nodes it has created
    too. *)
Theorem Logger_get_named (this_ptr : ptr) (logger_name : string) (this : Logger) :
  named this_ptr this ->
  exists this' h,
    Logger_get this_ptr logger_name this = Some (this', Some h)
    /\ named this_ptr this'.
Proof.
  intros Hnamed.
  destruct (get_rec_named (Datatypes.S (String.length logger_name))
              this_ptr logger_name this) as (this' & rel & n & H & _ & Hn & _); [lia|done|].
  by exists this', (this_ptr ++ rel).
Qed.

(** X16. In a named tree, the node that [get] returns for a name shorter
    than 2^31 characters is named by the name of the node the call
    started from, a separator and the name asked for, whatever empty
    segments the name has. *)
Theorem Logger_get_name (this_ptr : ptr) (logger_name : string) (this : Logger) :
  named this_ptr this ->
  Z.of_nat (String.length logger_name) < 2 ^ 31 ->
  exists this' rel n,
    Logger_get this_ptr logger_name this = Some (this', Some (this_ptr ++ rel))
    /\ node_at rel this' = Some n
    /\ name n = name this +:+ "/" +:+ logger_name.
Proof.
  intros Hnamed Hshort.
  destruct (get_rec_named (Datatypes.S (String.length logger_name))
              this_ptr logger_name this) as (this' & rel & n & H & Hn & _ & _ & Hname);
    [lia|done|].
  exists this', rel, n. split; [done|]. split; [done|]. by apply Hname.
Qed.


Lemma named_root0 : named [] root0.
Proof.
  apply named_intro. intros k c. unfold root0. simpl.
  intros [<- <-]%lookup_singleton_Some.
  split; [reflexivity|]. split; [reflexivity|].
  apply named_intro. intros k c. unfold app0. simpl. by rewrite lookup_empty.
Qed.

Lemma Logger_get_named_witness :
  exists this' h,
    Logger_get [] "app/net" root0 = Some (this', Some h) /\ named [] this'.
Proof. apply (Logger_get_named [] "app/net" root0). exact named_root0. Defined.

Lemma Logger_get_name_witness :
  exists this' rel n,
    Logger_get [] "app//net/" root0 = Some (this', Some ([] ++ rel))
    /\ node_at rel this' = Some n
    /\ name n = name root0 +:+ "/" +:+ "app//net/".
Proof.
  apply (Logger_get_name [] "app//net/" root0); [exact named_root0|].
  vm_compute. reflexivity.
Defined.


(** ** Subscription through the tree *)

(** A change of the node at [p] shows in the fields of no node outside
    the subtree of [p], whatever the change is. *)
Lemma update_at_outside p f root q :
  ~ p `prefix_of` q ->
  fields <$> node_at q (update_at p f root) = fields <$> node_at q root.
Proof.
  revert root q. induction p as [|k p IH]; intros root q Hq; simpl.
  - destruct Hq. apply prefix_nil.
  - destruct (children root !! k) as [c|] eqn:Hk; [|done].
    destruct q as [|k' q]; simpl.
    + unfold fields. simpl. rewrite dom_insert_lookup_L; [done|by rewrite Hk].
    + destruct (decide (k = k')) as [<-|Hne].
      * rewrite lookup_insert_eq, Hk. apply IH. intros Hp. apply Hq.
        by apply prefix_cons.
      * by rewrite lookup_insert_ne.
Qed.

(** X18. [Sink::subscribe] through a pointer reaches the subtree of the
    node and nothing else: every node under it gets the reference as its
    last entry, and every node outside, the ancestors included, keeps all
    its fields. *)
Theorem subscribe_reach (self : weak_ptr) (p : ptr) (root_logger this : Logger) :
  node_at p root_logger = Some this ->
  exists root',
    subscribe self p root_logger = Some root'
    /\ (forall q n, node_at q this = Some n ->
          exists n', node_at (p ++ q) root' = Some n'
            /\ sinks n' = sinks n ++ [self])
    /\ (forall q, ~ p `prefix_of` q ->
          fields <$> node_at q root' = fields <$> node_at q root_logger).
Proof.
  intros Hp. unfold subscribe. rewrite Hp. eexists. split; [done|]. split.
  - intros q n Hq. rewrite node_at_app, (node_at_update_at _ _ _ _ Hp). simpl.
    rewrite node_at_attach_sink, Hq. simpl. eexists. split; [done|].
    by destruct n.
  - intros q Hq. by apply update_at_outside.
Qed.

Lemma subscribe_reach_witness :
  exists root',
    subscribe (Owned 9) ["app"] root0 = Some root'
    /\ (forall q n, node_at q app0 = Some n ->
          exists n', node_at (["app"] ++ q) root' = Some n'
            /\ sinks n' = sinks n ++ [Owned 9])
    /\ (forall q, ~ ["app"] `prefix_of` q ->
          fields <$> node_at q root' = fields <$> node_at q root0).
Proof. apply (subscribe_reach (Owned 9) ["app"] root0 app0). reflexivity. Defined.

(** X19. [Sink::subscribe] by name never fails: the logger is resolved,
    and created when it is missing, and holds the reference as its last
    entry afterwards. *)
Theorem subscribe_path_defined (self : weak_ptr) (logger : string) (root_logger : Logger) :
  exists root1 p n root2,
    get logger root_logger = Some (root1, Some p)
    /\ node_at p root1 = Some n
    /\ subscribe_path self logger root_logger = Some root2
    /\ node_at p root2 = Some (attach_sink self n)
    /\ sinks (attach_sink self n) = sinks n ++ [self].
Proof.
  destruct (Logger_get_spec [] logger root_logger) as (root1 & rel & H & [n Hn] & _).
  simpl in H. exists root1, rel, n. eexists.
  split; [done|]. split; [done|].
  unfold subscribe_path, get. rewrite H. simpl. unfold subscribe. rewrite Hn.
  split; [done|]. split; [by apply node_at_update_at|by destruct n].
Qed.

(** X20. [Sink::unsubscribe] by the name of a logger that does not exist
    is undefined: the logger is created without sinks, and the erase on
    its empty vector is the erase of the end iterator. *)
Theorem unsubscribe_path_new (self : weak_ptr) (logger : string)
    (root_logger root1 : Logger) (p : ptr) :
  get logger root_logger = Some (root1, Some p) ->
  node_at p root_logger = None ->
  unsubscribe_path self logger root_logger = None.
Proof.
  intros Hg Hnew.
  destruct (Logger_get_spec [] logger root_logger)
    as (root1' & rel & H & [n Hn] & _ & Hfresh).
  unfold get in Hg. rewrite Hg in H. simpl in H. injection H as <- <-.
  unfold unsubscribe_path, get. rewrite Hg. simpl. unfold unsubscribe. rewrite Hn.
  rewrite deattach_sink_absent; [done|].
  rewrite (Hfresh p n Hn Hnew). constructor.
Qed.

Lemma unsubscribe_path_new_witness :
  node_at ["db"] root0 = None /\ unsubscribe_path (Owned 1) "db" root0 = None.
Proof.
  split; [reflexivity|].
  destruct (get "db" root0) as [[root1 r]|] eqn:Hg; [|by vm_compute in Hg].
  assert (r = Some ["db"]) as ->.
  { assert (snd <$> get "db" root0 = Some (Some ["db"])) as H by (vm_compute; reflexivity).
    rewrite Hg in H. simpl in H. congruence. }
  apply (unsubscribe_path_new (Owned 1) "db" root0 root1 ["db"] Hg). reflexivity.
Defined.

Lemma deattach_sink_once_witness :
  exists this',
    deattach_sink (Owned 2) root0 = Some this'
    /\ forall q,
        fields <$> node_at q this'
        = (fun n => (parent n, name n, propagate n, dom (children n),
                     others (Owned 2) (sinks n))) <$> node_at q root0.
Proof.
  apply (deattach_sink_once (Owned 2) root0).
  intros q n Hq. destruct (nodes_of_root0 q n Hq) as [->| ->]; vm_compute; reflexivity.
Defined.

(** X22. [equals] compares owners: two references are equal exactly when
    they share the control block or are both empty, and whether a
    reference still resolves plays no part in it. *)
Theorem equals_owner (t u : weak_ptr) :
  (equals t u = true <-> t = u)
  /\ (equals t u = equals u t)
  /\ (equals t EmptyPtr = true <-> t = EmptyPtr).
Proof.
  split; [apply equals_iff|]. split; [|apply equals_iff].
  unfold equals. by rewrite orb_comm.
Qed.
